(** * cssm: scoped CSS class names

    A shallow embedding of [cssm.go] (package [cssm]) and the properties
    of its hasher, its token-stream scope transformer ([Process]) and its
    caching [Collector].

    Go [string] and [[]byte] values are modelled as [string] (a list of
    8-bit characters); Go [int] and [uint32] values as [Z], with the
    truncations written out; Go maps as [gmap]. *)

From Stdlib Require Import ZArith List String Ascii Bool Lia.
From stdpp Require Import base gmap strings.

Import ListNotations.
Local Open Scope Z_scope.
Local Open Scope string_scope.

(** ** Hasher *)

Module Hasher.

(** The value of a byte of the input. *)
Definition byte_val (c : ascii) : Z := Z.of_N (N_of_ascii c).

(** [hash/adler32]: the Adler-32 checksum of RFC 1950. [s1] starts at 1
    and [s2] at 0; both are kept modulo 65521; the digest is
    [s2<<16 | s1]. *)
Definition adler_mod : Z := 65521.

Definition adler32_update (d : Z * Z) (x : ascii) : Z * Z :=
  let s1 := (fst d + byte_val x) mod adler_mod in
  let s2 := (snd d + s1) mod adler_mod in
  (s1, s2).

Fixpoint adler32_write (d : Z * Z) (p : string) : Z * Z :=
  match p with
  | EmptyString => d
  | String x p' => adler32_write (adler32_update d x) p'
  end.

Definition adler32_Sum32 (p : string) : Z :=
  let d := adler32_write (1, 0) p in
  Z.lor (Z.shiftl (snd d) 16) (fst d).

(** [encoding/binary]: the two byte orders [binary.NativeEndian] can
    stand for, depending on the machine the program is compiled for. *)
Inductive ByteOrder := LittleEndian | BigEndian.

(** Go's conversion [byte(v)]. *)
Definition byte_of (v : Z) : Z := Z.land v 255.

Definition PutUint32 (o : ByteOrder) (v : Z) : list Z :=
  match o with
  | LittleEndian =>
      [byte_of v; byte_of (Z.shiftr v 8); byte_of (Z.shiftr v 16); byte_of (Z.shiftr v 24)]
  | BigEndian =>
      [byte_of (Z.shiftr v 24); byte_of (Z.shiftr v 16); byte_of (Z.shiftr v 8); byte_of v]
  end.

(** [encoding/base64]: the URL-safe alphabet and [RawURLEncoding]
    (no padding). *)
Definition encodeURL : string :=
  "ABCDEFGHIJKLMNOPQRSTUVWXYZabcdefghijklmnopqrstuvwxyz0123456789-_".

Definition enc (i : Z) : ascii :=
  match String.get (Z.to_nat i) encodeURL with
  | Some c => c
  | None => "000"%char
  end.

Fixpoint EncodeToString (src : list Z) : string :=
  match src with
  | [] => EmptyString
  | [b0] =>
      let val := Z.shiftl b0 16 in
      String (enc (Z.land (Z.shiftr val 18) 63))
        (String (enc (Z.land (Z.shiftr val 12) 63)) EmptyString)
  | [b0; b1] =>
      let val := Z.lor (Z.shiftl b0 16) (Z.shiftl b1 8) in
      String (enc (Z.land (Z.shiftr val 18) 63))
        (String (enc (Z.land (Z.shiftr val 12) 63))
          (String (enc (Z.land (Z.shiftr val 6) 63)) EmptyString))
  | b0 :: b1 :: b2 :: rest =>
      let val := Z.lor (Z.lor (Z.shiftl b0 16) (Z.shiftl b1 8)) b2 in
      String (enc (Z.land (Z.shiftr val 18) 63))
        (String (enc (Z.land (Z.shiftr val 12) 63))
          (String (enc (Z.land (Z.shiftr val 6) 63))
            (String (enc (Z.land val 63)) (EncodeToString rest))))
  end.

(** [genHash]: the fingerprint of a ruleset. [native] is the byte order
    that [binary.NativeEndian] denotes on the machine at hand. *)
Definition genHash (native : ByteOrder) (input : string) : string :=
  let checksum := PutUint32 native (adler32_Sum32 input) in
  EncodeToString checksum.

(** Membership in the URL-safe base64 alphabet. *)
Definition is_url_safe (c : ascii) : bool :=
  let n := N_of_ascii c in
  ((65 <=? n) && (n <=? 90) || (97 <=? n) && (n <=? 122) ||
   (48 <=? n) && (n <=? 57) || (n =? 45) || (n =? 95))%N.

Fixpoint all_chars (p : ascii -> bool) (s : string) : bool :=
  match s with
  | EmptyString => true
  | String c s' => p c && all_chars p s'
  end.

(** The position of a character in the alphabet (64 when absent). *)
Fixpoint index_from (i : Z) (c : ascii) (s : string) : Z :=
  match s with
  | EmptyString => 64
  | String d s' => if Ascii.eqb c d then i else index_from (i + 1) c s'
  end.

End Hasher.

Import Hasher.


(** ** Tokens

    The CSS tokenizer ([github.com/tdewolff/parse/v2/css]) is an external
    collaborator. Its token kinds are listed here as the library declares
    them, except [ErrorToken]: a lexer over an in-memory input yields
    [ErrorToken] only once the input is exhausted and keeps yielding it
    afterwards, so a lexer is modelled by the finite list of tokens it
    produces before that point, and [zt == css.ErrorToken] is the empty
    list. [lerr] is what [Err()] returns at that point. *)

Module Tokens.

Inductive TokenType :=
  | IdentToken | FunctionToken | AtKeywordToken | HashToken | StringToken
  | BadStringToken | URLToken | BadURLToken | DelimToken | NumberToken
  | PercentageToken | DimensionToken | UnicodeRangeToken | IncludeMatchToken
  | DashMatchToken | PrefixMatchToken | SuffixMatchToken | SubstringMatchToken
  | ColumnToken | WhitespaceToken | CDOToken | CDCToken | ColonToken
  | SemicolonToken | CommaToken | LeftBracketToken | RightBracketToken
  | LeftParenthesisToken | RightParenthesisToken | LeftBraceToken
  | RightBraceToken | CommentToken | EmptyToken | CustomPropertyNameToken
  | CustomPropertyValueToken.

#[global] Instance TokenType_eq_dec : EqDecision TokenType.
Proof. solve_decision. Defined.

(** A token: its kind and its raw bytes. *)
Definition Token : Type := TokenType * string.

(** Go [error] values that occur in the package. *)
Inductive error :=
  | EOF
  | ErrShortWrite
  | OtherError (msg : string).

#[global] Instance error_eq_dec : EqDecision error.
Proof. solve_decision. Defined.

Record Lexer := { toks : list Token; lerr : error }.

(** The bytes of a run of tokens, in order. *)
Fixpoint payload (ts : list Token) : string :=
  match ts with
  | [] => EmptyString
  | t :: ts' => snd t +:+ payload ts'
  end.

End Tokens.

Import Tokens.

(** ** A reference tokenizer

    The fragment of CSS Syntax Level 3 tokenization that the package's
    test payloads exercise: whitespace runs, identifiers, functions,
    at-keywords, hashes, numbers, strings without escapes, comments and
    single-character punctuation; any other byte is a [DelimToken]. It
    stands in for the external lexer wherever a concrete one is needed. *)

Module RefLexer.

Definition code (c : ascii) : N := N_of_ascii c.

Definition isWhitespace (c : ascii) : bool :=
  let n := code c in ((n =? 32) || (n =? 9) || (n =? 10) || (n =? 13) || (n =? 12))%N.

Definition isDigit (c : ascii) : bool :=
  let n := code c in ((48 <=? n) && (n <=? 57))%N.

Definition isNameStart (c : ascii) : bool :=
  let n := code c in
  ((97 <=? n) && (n <=? 122) || (65 <=? n) && (n <=? 90) || (n =? 95) || (128 <=? n))%N.

Definition isNameChar (c : ascii) : bool :=
  isNameStart c || isDigit c || (code c =? 45)%N.

(** The longest prefix of [s] whose characters satisfy [p], and the rest. *)
Fixpoint span (p : ascii -> bool) (s : string) : string * string :=
  match s with
  | EmptyString => (EmptyString, EmptyString)
  | String c s' =>
      if p c then let '(a, b) := span p s' in (String c a, b)
      else (EmptyString, s)
  end.

(** Up to and including the first occurrence of the two bytes [x y]. *)
Fixpoint until2 (x y : ascii) (s : string) : string * string :=
  match s with
  | EmptyString => (EmptyString, EmptyString)
  | String c s' =>
      match s' with
      | String d s'' =>
          if Ascii.eqb c x && Ascii.eqb d y then (String c (String d EmptyString), s'')
          else let '(a, b) := until2 x y s' in (String c a, b)
      | EmptyString => (String c EmptyString, EmptyString)
      end
  end.

(** Up to and including the first occurrence of the byte [q]. *)
Fixpoint until1 (q : ascii) (s : string) : string * string :=
  match s with
  | EmptyString => (EmptyString, EmptyString)
  | String c s' =>
      if Ascii.eqb c q then (String c EmptyString, s')
      else let '(a, b) := until1 q s' in (String c a, b)
  end.

(** Does an identifier start here? *)
Definition startsIdent (s : string) : bool :=
  match s with
  | String c s' =>
      isNameStart c ||
      ((code c =? 45)%N &&
       match s' with String d _ => isNameStart d || (code d =? 45)%N | EmptyString => false end)
  | EmptyString => false
  end.

Definition punctuation (c : ascii) : option TokenType :=
  match code c with
  | 58%N => Some ColonToken
  | 59%N => Some SemicolonToken
  | 44%N => Some CommaToken
  | 91%N => Some LeftBracketToken
  | 93%N => Some RightBracketToken
  | 40%N => Some LeftParenthesisToken
  | 41%N => Some RightParenthesisToken
  | 123%N => Some LeftBraceToken
  | 125%N => Some RightBraceToken
  | _ => None
  end.

Fixpoint lex (fuel : nat) (s : string) : list Token :=
  match fuel, s with
  | O, _ => []
  | _, EmptyString => []
  | S fuel', String c s' =>
      if isWhitespace c then
        let '(w, r) := span isWhitespace s in (WhitespaceToken, w) :: lex fuel' r
      else if (code c =? 47)%N && (match s' with String d _ => (code d =? 42)%N | _ => false end) then
        let '(w, r) := until2 "*" "/" (match s' with String _ t => t | _ => s' end) in
        (CommentToken, String c (String "*" w)) :: lex fuel' r
      else if (code c =? 34)%N || (code c =? 39)%N then
        let '(w, r) := until1 c s' in (StringToken, String c w) :: lex fuel' r
      else if (code c =? 64)%N && startsIdent s' then
        let '(w, r) := span isNameChar s' in (AtKeywordToken, String c w) :: lex fuel' r
      else if (code c =? 35)%N && (match s' with String d _ => isNameChar d | _ => false end) then
        let '(w, r) := span isNameChar s' in (HashToken, String c w) :: lex fuel' r
      else if isDigit c then
        let '(w, r) := span isDigit s in
        if startsIdent r then
          let '(u, r') := span isNameChar r in (DimensionToken, w +:+ u) :: lex fuel' r'
        else match r with
             | String d r' =>
                 if (code d =? 37)%N then (PercentageToken, w +:+ String d EmptyString) :: lex fuel' r'
                 else (NumberToken, w) :: lex fuel' r
             | EmptyString => [(NumberToken, w)]
             end
      else if startsIdent s then
        let '(w, r) := span isNameChar s in
        match r with
        | String d r' =>
            if (code d =? 40)%N then (FunctionToken, w +:+ String d EmptyString) :: lex fuel' r'
            else (IdentToken, w) :: lex fuel' r
        | EmptyString => [(IdentToken, w)]
        end
      else
        match punctuation c with
        | Some k => (k, String c EmptyString) :: lex fuel' s'
        | None => (DelimToken, String c EmptyString) :: lex fuel' s'
        end
  end.

(** [css.NewLexer(parse.NewInputBytes(in))]: an in-memory input has no
    reader failure, so the error at the end of the tokens is [io.EOF]. *)
Definition NewLexer (input : string) : Lexer :=
  {| toks := lex (String.length input) input; lerr := EOF |}.

End RefLexer.

(** ** Scope transformer *)

Module Transformer.

(** The two [bytes.Buffer]s and the map that [Process] mutates. *)
Record Buffers := {
  out : string;
  tmp : string;
  scopedClasses : gmap string string
}.

(** [tmp.Write(data)] *)
Definition tmp_Write (data : string) (b : Buffers) : Buffers :=
  {| out := out b; tmp := tmp b +:+ data; scopedClasses := scopedClasses b |}.

(** [out.Write(data)] *)
Definition out_Write (data : string) (b : Buffers) : Buffers :=
  {| out := out b +:+ data; tmp := tmp b; scopedClasses := scopedClasses b |}.

(** [tmp.WriteTo(&out)]: the unread bytes of [tmp] are appended to [out]
    and [tmp] is left empty; writing to a [bytes.Buffer] does not fail. *)
Definition tmp_WriteTo_out (b : Buffers) : Buffers :=
  {| out := out b +:+ tmp b; tmp := EmptyString; scopedClasses := scopedClasses b |}.

(** [tmp.Reset()] *)
Definition tmp_Reset (b : Buffers) : Buffers :=
  {| out := out b; tmp := EmptyString; scopedClasses := scopedClasses b |}.

(** What [Process] returns: [(out.Bytes(), scopedClasses, nil)] or
    [(nil, nil, err)]. *)
Inductive result :=
  | Ok (css : string) (classes : gmap string string)
  | Fail (err : error).

(** Where the token stream can run out. The names are those of the
    states of the single-pass machine; [GlobalBlock] carries the value of
    [braceCount] at that point. *)
Inductive State :=
  | Normal
  | PendingGlobalCheck
  | GlobalBlock (braceCount : Z)
  | PendingAtRuleCheck
  | MediaBlock
  | PendingClassName
  | MediaPendingClassName.

Section Loops.

Variable hash : string.

(** The closure [addScopedName]. *)
Definition addScopedName (rawNameBytes : string) (b : Buffers) : Buffers :=
  let rawName := rawNameBytes in
  let scopedName := rawName +:+ "_" +:+ hash in
  {| out := out b +:+ scopedName;
     tmp := tmp b;
     scopedClasses := <[rawName := scopedName]> (scopedClasses b) |}.

(** The loops of [Process] do not return when a read inside them yields
    [ErrorToken]: they [continue mainLoop], whose next read yields
    [ErrorToken] again, and the function returns from there. [atEnd] is
    that return; it is told in which state the stream ran out. *)
Variable R : Type.
Variable atEnd : State -> Buffers -> R.

(** [braceCount] is a Go [int]; it moves by one per token, so it stays
    far from the bounds of a machine integer. *)
Fixpoint mainLoop (zz : list Token) (b : Buffers) {struct zz} : R :=
  match zz with
  | [] => atEnd Normal b
  | (zt, data) :: zz1 =>
      let b := tmp_Write data b in
      if decide (zt = ColonToken) then
        match zz1 with
        | [] => atEnd PendingGlobalCheck b
        | (zt, data) :: zz2 =>
            if decide (zt <> IdentToken) then
              mainLoop zz2 (out_Write data (tmp_WriteTo_out b))
            else if decide (data <> "global") then
              mainLoop zz2 (out_Write data (tmp_WriteTo_out b))
            else
              let braceCount := 0 in
              globalLoop zz2 braceCount b
        end
      else if decide (zt = AtKeywordToken) then
        let b := tmp_WriteTo_out b in
        match zz1 with
        | [] => atEnd PendingAtRuleCheck b
        | (zt, data) :: zz2 =>
            let b := out_Write data b in
            if decide (zt <> IdentToken) then mainLoop zz2 b
            else if decide (data <> "media") then mainLoop zz2 b
            else mediaLoop zz2 b
        end
      else if decide (zt = DelimToken /\ data = ".") then
        let b := tmp_WriteTo_out b in
        match zz1 with
        | [] => atEnd PendingClassName b
        | (zt, data) :: zz2 =>
            if decide (zt <> IdentToken) then mainLoop zz2 (out_Write data b)
            else mainLoop zz2 (tmp_Reset (addScopedName data b))
        end
      else
        mainLoop zz1 (tmp_Reset (tmp_WriteTo_out b))
  end

(** The loop of lines 78-99, entered after [:global]. *)
with globalLoop (zz : list Token) (braceCount : Z) (b : Buffers) {struct zz} : R :=
  match zz with
  | [] => atEnd (GlobalBlock braceCount) b
  | (zt, data) :: zz1 =>
      if decide (zt = LeftBraceToken) then
        let b := if decide (braceCount <> 0) then out_Write data b else b in
        let braceCount := braceCount + 1 in
        globalLoop zz1 braceCount b
      else if decide (zt = RightBraceToken) then
        let b := if decide (braceCount <> 1) then out_Write data b else b in
        let braceCount := braceCount - 1 in
        if decide (braceCount <= 0) then mainLoop zz1 (tmp_Reset b)
        else globalLoop zz1 braceCount b
      else
        globalLoop zz1 braceCount (out_Write data b)
  end

(** The loop of lines 115-142, entered after an at-keyword followed by
    the identifier [media]. [braceCount] is declared in the body of the
    loop, so every iteration starts it at 0. *)
with mediaLoop (zz : list Token) (b : Buffers) {struct zz} : R :=
  match zz with
  | [] => atEnd MediaBlock b
  | (zt, data) :: zz1 =>
      let b := out_Write data b in
      let braceCount := 0 in
      if decide (zt = DelimToken /\ data = ".") then
        match zz1 with
        | [] => atEnd MediaPendingClassName b
        | (zt, data) :: zz2 =>
            if decide (zt <> IdentToken) then mediaLoop zz2 (out_Write data b)
            else mediaLoop zz2 (addScopedName data b)
        end
      else if decide (zt = LeftBraceToken) then
        let braceCount := braceCount + 1 in
        mediaLoop zz1 b
      else if decide (zt = RightBraceToken) then
        let braceCount := braceCount - 1 in
        if decide (braceCount <= 0) then mainLoop zz1 (tmp_Reset b)
        else mediaLoop zz1 b
      else
        mediaLoop zz1 b
  end.

End Loops.

Arguments mainLoop hash {R} atEnd zz b.
Arguments globalLoop hash {R} atEnd zz braceCount b.
Arguments mediaLoop hash {R} atEnd zz b.

(** Lines 52-58: the return of the main loop on [ErrorToken]. The lexer
    reports a non-nil error whenever it yields [ErrorToken]. *)
Definition returnAtError (err : error) (b : Buffers) : result :=
  if decide (err = EOF) then Ok (out b) (scopedClasses b)
  else Fail err.

Definition empty_buffers : Buffers :=
  {| out := EmptyString; tmp := EmptyString; scopedClasses := ∅ |}.

(** Lines 37-163: the body of [Process] once the fingerprint and the
    lexer exist. *)
Definition run (hash : string) (zz : Lexer) : result :=
  mainLoop hash (fun _ => returnAtError (lerr zz)) (toks zz) empty_buffers.

(** The state in which the token stream [zz] runs out. *)
Definition state_at_end (zz : list Token) : State :=
  mainLoop EmptyString (fun s _ => s) zz empty_buffers.

Section Process.

(** The byte order of the machine and the external lexer. *)
Variable NativeEndian : ByteOrder.
Variable NewLexer : string -> Lexer.

Definition Process (styles : string) : result :=
  let input := styles in
  let hash := genHash NativeEndian input in
  let zz := NewLexer input in
  run hash zz.

End Process.

End Transformer.

Import Transformer.

(** ** Collector *)

Module Aggregator.

(** [rules] is a Go map that starts out [nil]: [None] is the [nil] map,
    in which every lookup misses. [styles] holds the unread bytes of the
    [bytes.Buffer]. *)
Record Collector := {
  rules : option (gmap string (gmap string string));
  styles : string
}.

(** The zero value of [Collector]. *)
Definition new_Collector : Collector :=
  {| rules := None; styles := EmptyString |}.

(** What [Classes] returns: [(mapping, nil)] or [(nil, err)]. *)
Inductive lookup_result :=
  | Mapping (m : gmap string string)
  | LookupError (err : error).

(** [h.Class(v)] of [gomponents/html]: the class attribute node. *)
Inductive Node := Class (v : string).

(** A call either returns or panics with a value. *)
Inductive panic_value :=
  | PanicError (err : error)
  | PanicString (msg : string).

Inductive outcome (A : Type) :=
  | Returns (a : A)
  | Panics (v : panic_value).

Arguments Returns {A} a.
Arguments Panics {A} v.

Definition newline : string := String "010" EmptyString.

(** The bytes of [s] after its first [n]. *)
Fixpoint string_drop (n : nat) (s : string) : string :=
  match n, s with
  | O, _ => s
  | S n', String _ s' => string_drop n' s'
  | S _, EmptyString => EmptyString
  end.

Section Collector.

Variable NativeEndian : ByteOrder.
Variable NewLexer : string -> Lexer.

(** [strconv.Quote], the rendering of a string operand under the verb
    [%q] of [fmt.Sprintf]. *)
Variable Quote : string -> string.

(** An [io.Writer]: a call of [Write] reports how many bytes it took and
    an error, if any. *)
Variable Writer : Type.
Variable Write : Writer -> string -> Writer * (nat * option error).

Definition Classes (c : Collector) (ruleset : string) : lookup_result * Collector :=
  match rules c ≫= (fun r => r !! ruleset) with
  | Some m => (Mapping m, c)
  | None =>
      match Process NativeEndian NewLexer ruleset with
      | Fail err => (LookupError err, c)
      | Ok css mapping =>
          let styles' := (styles c +:+ css) +:+ newline in
          let rules' := match rules c with
                        | None => ∅
                        | Some r => r
                        end in
          (Mapping mapping,
           {| rules := Some (<[ruleset := mapping]> rules'); styles := styles' |})
      end
  end.

(** [fmt.Sprintf("no class found %q", name)] *)
Definition no_class_found (name : string) : string :=
  "no class found " +:+ Quote name.

(** The [range] loop of [C] over [className], from index [i] on, with the
    [strings.Builder] holding [sb]. *)
Fixpoint C_loop (mapping : gmap string string) (i : nat) (className : list string)
    (sb : string) : outcome string :=
  match className with
  | [] => Returns sb
  | name :: className' =>
      let sb := if decide (i <> 0%nat) then sb +:+ " " else sb in
      match mapping !! name with
      | Some mapped => C_loop mapping (S i) className' (sb +:+ mapped)
      | None => Panics (PanicString (no_class_found name))
      end
  end.

Definition C (c : Collector) (ruleset : string) (className : list string)
    : outcome Node * Collector :=
  match Classes c ruleset with
  | (LookupError err, c') => (Panics (PanicError err), c')
  | (Mapping mapping, c') =>
      match className with
      | [className0] =>
          match mapping !! className0 with
          | Some name => (Returns (Class name), c')
          | None => (Panics (PanicString (no_class_found className0)), c')
          end
      | _ =>
          match C_loop mapping 0 className EmptyString with
          | Returns sb => (Returns (Class sb), c')
          | Panics v => (Panics v, c')
          end
      end
  end.

Definition R (c : Collector) (ruleset : string) : outcome Node * Collector :=
  C c ruleset ["root"].

(** [bytes.Buffer.WriteTo]: the unread bytes are handed to [w] in one
    [Write]; the bytes [w] took are consumed; when [w] took them all the
    buffer is reset. Returns the error, the buffer and the writer. *)
Definition Buffer_WriteTo (buf : string) (w : Writer)
    : outcome (option error) * string * Writer :=
  let nBytes := String.length buf in
  if decide (0 < nBytes)%nat then
    let '(w', (m, e)) := Write w buf in
    if decide (nBytes < m)%nat then
      (Panics (PanicString "bytes.Buffer.WriteTo: invalid Write count"), buf, w')
    else
      let buf' := string_drop m buf in
      match e with
      | Some err => (Returns (Some err), buf', w')
      | None =>
          if decide (m <> nBytes) then (Returns (Some ErrShortWrite), buf', w')
          else (Returns None, EmptyString, w')
      end
  else (Returns None, EmptyString, w).

Definition Render (c : Collector) (w : Writer)
    : outcome (option error) * Collector * Writer :=
  let '(w1, (_, e1)) := Write w "<style>" in
  match e1 with
  | Some err => (Returns (Some err), c, w1)
  | None =>
      let '(r, buf, w2) := Buffer_WriteTo (styles c) w1 in
      let c' := {| rules := rules c; styles := buf |} in
      match r with
      | Panics v => (Panics v, c', w2)
      | Returns (Some err) => (Returns (Some err), c', w2)
      | Returns None =>
          let '(w3, (_, e3)) := Write w2 "</style>" in
          match e3 with
          | Some err => (Returns (Some err), c', w3)
          | None => (Returns None, c', w3)
          end
      end
  end.

End Collector.

(** [strconv.Quote] on a string of printable ASCII characters other than
    the double quote and the backslash: the string between double
    quotes. *)
Definition Quote_plain (s : string) : string :=
  String "034" (s +:+ String "034" EmptyString).

(** An [io.Writer] that keeps what it is given and never fails, such as
    a [bytes.Buffer]. *)
Definition MemWrite (w : string) (p : string) : string * (nat * option error) :=
  (w +:+ p, (String.length p, None)).

End Aggregator.

Import Aggregator.

(** ** Shapes of token streams

    The vocabulary in which the properties of [Process] are stated. These
    definitions describe token streams; they are not part of the
    program. *)

Module Shapes.

(** The [.] delimiter. *)
Definition is_dot (t : Token) : bool :=
  bool_decide (fst t = DelimToken /\ snd t = ".").

Definition is_brace (t : Token) : bool :=
  bool_decide (fst t = LeftBraceToken) || bool_decide (fst t = RightBraceToken).

(** The tokens after which the transformer reads one token ahead: a
    colon, an at-keyword and the [.] delimiter. *)
Definition reads_ahead (t : Token) : bool :=
  bool_decide (fst t = ColonToken) || bool_decide (fst t = AtKeywordToken) || is_dot t.

(** The braces of [ts] nest properly above a block that is already
    [depth] braces deep, and close all of them but none more. *)
Fixpoint balanced_from (depth : nat) (ts : list Token) : bool :=
  match ts with
  | [] => bool_decide (depth = 0%nat)
  | t :: ts' =>
      if bool_decide (fst t = LeftBraceToken) then balanced_from (S depth) ts'
      else if bool_decide (fst t = RightBraceToken) then
        match depth with
        | O => false
        | S d => balanced_from d ts'
        end
      else balanced_from depth ts'
  end.

(** The braces of [ts] never close more than they opened above a block
    that is [depth] braces deep, whatever they leave open. *)
Fixpoint unclosed_from (depth : nat) (ts : list Token) : bool :=
  match ts with
  | [] => true
  | t :: ts' =>
      if bool_decide (fst t = LeftBraceToken) then unclosed_from (S depth) ts'
      else if bool_decide (fst t = RightBraceToken) then
        match depth with
        | O => false
        | S d => unclosed_from d ts'
        end
      else unclosed_from depth ts'
  end.

(** The bare class selectors of a token stream that lie outside a
    [:global] block, read off the stream position by position: a [.]
    delimiter immediately followed by an identifier. A [:global] block
    starts at a colon immediately followed by the identifier [global]
    and is delimited by a brace counter that starts at 0, goes up on a
    left brace and down on a right brace, the block ending when a right
    brace brings it back to 0 or below. [inside] is [Some n] within such
    a block, [n] being the counter. Each selector comes with a flag:
    whether its [.] immediately follows a token after which the
    transformer reads ahead ([after_reader] tells so for the head of the
    stream). *)
Fixpoint bare_class_selectors (after_reader : bool) (inside : option Z)
    (ts : list Token) : list (string * bool) :=
  match ts with
  | [] => []
  | t :: ts' =>
      match inside with
      | Some n =>
          if bool_decide (fst t = LeftBraceToken) then
            bare_class_selectors (reads_ahead t) (Some (n + 1)) ts'
          else if bool_decide (fst t = RightBraceToken) then
            if bool_decide (n - 1 <= 0) then bare_class_selectors (reads_ahead t) None ts'
            else bare_class_selectors (reads_ahead t) (Some (n - 1)) ts'
          else bare_class_selectors (reads_ahead t) (Some n) ts'
      | None =>
          match ts' with
          | t' :: ts'' =>
              if bool_decide (fst t = ColonToken) &&
                 bool_decide (fst t' = IdentToken /\ snd t' = "global") then
                bare_class_selectors (reads_ahead t') (Some 0) ts''
              else if is_dot t && bool_decide (fst t' = IdentToken) then
                (snd t', after_reader) :: bare_class_selectors (reads_ahead t) None ts'
              else bare_class_selectors (reads_ahead t) None ts'
          | [] => []
          end
      end
  end.

Section Claims.

Variable NativeEndian : ByteOrder.
Variable NewLexer : string -> Lexer.

(** [Process] returns a mapping that holds [name] with its scoped name. *)
Definition records (styles name : string) : Prop :=
  exists css classes,
    Process NativeEndian NewLexer styles = Ok css classes /\
    classes !! name = Some (name +:+ "_" +:+ genHash NativeEndian styles).

(** Every bare class selector outside a [:global] block is recorded. *)
Definition scoping_complete (styles : string) : Prop :=
  forall name flag,
    In (name, flag) (bare_class_selectors false None (toks (NewLexer styles))) ->
    records styles name.

End Claims.

End Shapes.

Import Shapes.

(** ** Derived notions

    Closed forms and iterated calls in which further properties of the
    package are stated. They are not part of the program. *)

Module Derived.

(** The sum of the bytes of [p]. *)
Fixpoint byte_sum (p : string) : Z :=
  match p with
  | EmptyString => 0
  | String x p' => byte_val x + byte_sum p'
  end.

(** The sum of the bytes of [p], each weighted by the number of bytes
    from it to the end of [p], itself included. *)
Fixpoint weighted_sum (p : string) : Z :=
  match p with
  | EmptyString => 0
  | String x p' => Z.of_nat (String.length p) * byte_val x + weighted_sum p'
  end.

(** The strings of [l], with one space between neighbours. *)
Fixpoint join_space (l : list string) : string :=
  match l with
  | [] => EmptyString
  | [x] => x
  | x :: l' => x +:+ " " +:+ join_space l'
  end.

(** Two results of the transformer, one after the other: the outputs
    are concatenated and the mappings merged, the later one first. *)
Definition sequence (r1 r2 : result) : result :=
  match r1, r2 with
  | Ok css1 classes1, Ok css2 classes2 => Ok (css1 +:+ css2) (classes2 ∪ classes1)
  | Fail err, _ => Fail err
  | _, Fail err => Fail err
  end.

(** The buffers and the result of a run that starts after the output
    [o] and the mapping [m0] of an earlier run. *)
Definition after_run (o : string) (m0 : gmap string string) (b : Buffers) : Buffers :=
  {| out := o +:+ out b; tmp := tmp b; scopedClasses := scopedClasses b ∪ m0 |}.

Definition result_after (o : string) (m0 : gmap string string) (r : result) : result :=
  match r with
  | Ok css classes => Ok (o +:+ css) (classes ∪ m0)
  | Fail err => Fail err
  end.

(** The buffers with which the tokens [zz] leave the main loop. *)
Definition buffers_at_end (hash : string) (zz : list Token) (b : Buffers) : Buffers :=
  mainLoop hash (fun _ b' => b') zz b.

(** No at-keyword token of [zz] is immediately followed by the
    identifier token [media]. A lexer that takes every name character
    after [@] into the at-keyword token yields such streams only. *)
Fixpoint media_free (zz : list Token) : bool :=
  match zz with
  | [] => true
  | t :: zz' =>
      match zz' with
      | t' :: _ =>
          negb (bool_decide (fst t = AtKeywordToken) &&
                bool_decide (fst t' = IdentToken /\ snd t' = "media"))
      | [] => true
      end && media_free zz'
  end.

(** The states of the media loop. *)
Definition in_media_loop (s : State) : bool :=
  match s with
  | MediaBlock | MediaPendingClassName => true
  | _ => false
  end.

(** The tokens of [zz] hold the class selector [.name]. *)
Definition has_selector (zz : list Token) (name : string) : Prop :=
  exists before after,
    zz = (before ++ (DelimToken, ".") :: (IdentToken, name) :: after)%list.

Section Collected.

Variable NativeEndian : ByteOrder.
Variable NewLexer : string -> Lexer.

(** The collector after [Classes] has been called on each text of
    [texts] in turn, starting from the zero value. *)
Definition collect (texts : list string) : Collector :=
  fold_left (fun c ruleset => snd (Classes NativeEndian NewLexer c ruleset))
    texts new_Collector.

(** What a new ruleset text adds to the buffer: its rewritten output
    and a newline, or nothing when [Process] fails on it. *)
Definition emitted (ruleset : string) : string :=
  match Process NativeEndian NewLexer ruleset with
  | Ok css _ => css +:+ newline
  | Fail _ => EmptyString
  end.

End Collected.

End Derived.

Import Derived.

(** * Properties *)

(** ** Strings *)

Module StringFacts.

Lemma app_nil_l (s : string) : EmptyString +:+ s = s.
Proof. reflexivity. Qed.

Lemma app_cons (c : ascii) (s t : string) : String c s +:+ t = String c (s +:+ t).
Proof. reflexivity. Qed.

Lemma app_nil_r (s : string) : s +:+ EmptyString = s.
Proof. induction s as [|c s IH]; [reflexivity | now rewrite app_cons, IH]. Qed.

Lemma app_assoc (a b c : string) : (a +:+ b) +:+ c = a +:+ (b +:+ c).
Proof. induction a as [|x a IH]; [reflexivity | now rewrite !app_cons, IH]. Qed.

Lemma payload_app (ts us : list Token) : payload (ts ++ us) = payload ts +:+ payload us.
Proof.
  induction ts as [|t ts IH]; [reflexivity|].
  cbn [payload app]. now rewrite IH, app_assoc.
Qed.

End StringFacts.

(** ** The hasher *)

Module HasherFacts.

(** Checking a boolean property of the numbers below a bound. *)
Lemma check_below (P : Z -> bool) (n : nat) :
  forallb P (map Z.of_nat (seq 0 n)) = true ->
  forall i, 0 <= i < Z.of_nat n -> P i = true.
Proof.
  intros Hall i Hi.
  rewrite forallb_forall in Hall. apply Hall.
  apply in_map_iff. exists (Z.to_nat i). split; [lia|].
  apply in_seq. lia.
Qed.

Lemma enc_url_safe i : 0 <= i < 64 -> is_url_safe (enc i) = true.
Proof.
  apply (check_below (fun i => is_url_safe (enc i)) 64). vm_compute. reflexivity.
Qed.

Lemma index_enc i : 0 <= i < 64 -> index_from 0 (enc i) encodeURL = i.
Proof.
  intros Hi.
  pose proof (check_below (fun i => Z.eqb (index_from 0 (enc i) encodeURL) i) 64) as H.
  apply Z.eqb_eq, H; [vm_compute; reflexivity | exact Hi].
Qed.

Lemma enc_inj i j : 0 <= i < 64 -> 0 <= j < 64 -> enc i = enc j -> i = j.
Proof.
  intros Hi Hj E. rewrite <- (index_enc i Hi), <- (index_enc j Hj), E. reflexivity.
Qed.

Lemma land_63 x : Z.land x 63 = x mod 64.
Proof. change 63 with (Z.ones 6). rewrite Z.land_ones by lia. reflexivity. Qed.

Lemma land_63_range x : 0 <= Z.land x 63 < 64.
Proof. rewrite land_63. apply Z.mod_pos_bound. lia. Qed.

Lemma byte_of_range v : 0 <= byte_of v < 256.
Proof.
  unfold byte_of. change 255 with (Z.ones 8). rewrite Z.land_ones by lia.
  apply Z.mod_pos_bound. lia.
Qed.

(** Or-ing a value below [2^k] into a value shifted left by [k] adds it. *)
Lemma lor_shiftl_low hi lo k :
  0 <= k -> 0 <= lo < 2 ^ k -> Z.lor (Z.shiftl hi k) lo = hi * 2 ^ k + lo.
Proof.
  intros Hk Hlo.
  assert (Z.land (Z.shiftl hi k) lo = 0) as Hdisj.
  { apply Z.bits_inj'. intros n Hn.
    rewrite Z.land_spec, Z.bits_0.
    destruct (Z.lt_ge_cases n k) as [Hlt|Hge].
    - rewrite Z.shiftl_spec_low by lia. reflexivity.
    - replace lo with (lo mod 2 ^ k) by (apply Z.mod_small; lia).
      rewrite Z.mod_pow2_bits_high by lia. apply andb_false_r. }
  rewrite <- Z.lxor_lor by exact Hdisj.
  rewrite <- Z.add_nocarry_lxor by exact Hdisj.
  rewrite Z.shiftl_mul_pow2 by lia. reflexivity.
Qed.

(** The 24-bit group that [EncodeToString] builds from three bytes. *)
Lemma group_value b0 b1 b2 :
  0 <= b0 < 256 -> 0 <= b1 < 256 -> 0 <= b2 < 256 ->
  Z.lor (Z.lor (Z.shiftl b0 16) (Z.shiftl b1 8)) b2 = b0 * 65536 + b1 * 256 + b2.
Proof.
  intros H0 H1 H2.
  assert (Z.lor (Z.shiftl b0 16) (Z.shiftl b1 8) = Z.shiftl (b0 * 256 + b1) 8) as ->.
  { rewrite (Z.shiftl_mul_pow2 (b0 * 256 + b1)) by lia.
    rewrite (Z.shiftl_mul_pow2 b1) by lia.
    replace (b1 * 2 ^ 8) with (b1 * 256) by lia.
    rewrite (lor_shiftl_low b0 (b1 * 256) 16) by lia. lia. }
  rewrite (lor_shiftl_low (b0 * 256 + b1) b2 8) by lia. lia.
Qed.

(** The four characters of a full group determine its three bytes. *)
Lemma group_inj a0 a1 a2 b0 b1 b2 :
  0 <= a0 < 256 -> 0 <= a1 < 256 -> 0 <= a2 < 256 ->
  0 <= b0 < 256 -> 0 <= b1 < 256 -> 0 <= b2 < 256 ->
  let va := a0 * 65536 + a1 * 256 + a2 in
  let vb := b0 * 65536 + b1 * 256 + b2 in
  (va / 2 ^ 18) mod 64 = (vb / 2 ^ 18) mod 64 ->
  (va / 2 ^ 12) mod 64 = (vb / 2 ^ 12) mod 64 ->
  (va / 2 ^ 6) mod 64 = (vb / 2 ^ 6) mod 64 ->
  va mod 64 = vb mod 64 ->
  a0 = b0 /\ a1 = b1 /\ a2 = b2.
Proof.
  intros Ha0 Ha1 Ha2 Hb0 Hb1 Hb2 va vb E18 E12 E6 E0.
  assert (va = vb) as E.
  { subst va vb.
    change (2 ^ 18) with 262144 in *. change (2 ^ 12) with 4096 in *.
    change (2 ^ 6) with 64 in *.
    Z.div_mod_to_equations. lia. }
  subst va vb. lia.
Qed.

(** The two characters of a trailing single byte determine it. *)
Lemma tail_inj a b :
  0 <= a < 256 -> 0 <= b < 256 ->
  (a * 65536 / 2 ^ 18) mod 64 = (b * 65536 / 2 ^ 18) mod 64 ->
  (a * 65536 / 2 ^ 12) mod 64 = (b * 65536 / 2 ^ 12) mod 64 ->
  a = b.
Proof.
  intros Ha Hb E18 E12.
  change (2 ^ 18) with 262144 in *. change (2 ^ 12) with 4096 in *.
  Z.div_mod_to_equations. lia.
Qed.

Lemma EncodeToString_4 b0 b1 b2 b3 :
  EncodeToString [b0; b1; b2; b3] =
  let val := Z.lor (Z.lor (Z.shiftl b0 16) (Z.shiftl b1 8)) b2 in
  let val' := Z.shiftl b3 16 in
  String (enc (Z.land (Z.shiftr val 18) 63))
    (String (enc (Z.land (Z.shiftr val 12) 63))
      (String (enc (Z.land (Z.shiftr val 6) 63))
        (String (enc (Z.land val 63))
          (String (enc (Z.land (Z.shiftr val' 18) 63))
            (String (enc (Z.land (Z.shiftr val' 12) 63)) EmptyString))))).
Proof. reflexivity. Qed.

(** On four bytes, the encoding loses nothing. *)
Lemma EncodeToString_4_inj a0 a1 a2 a3 b0 b1 b2 b3 :
  0 <= a0 < 256 -> 0 <= a1 < 256 -> 0 <= a2 < 256 -> 0 <= a3 < 256 ->
  0 <= b0 < 256 -> 0 <= b1 < 256 -> 0 <= b2 < 256 -> 0 <= b3 < 256 ->
  EncodeToString [a0; a1; a2; a3] = EncodeToString [b0; b1; b2; b3] ->
  [a0; a1; a2; a3] = [b0; b1; b2; b3].
Proof.
  intros Ha0 Ha1 Ha2 Ha3 Hb0 Hb1 Hb2 Hb3 E.
  rewrite !EncodeToString_4 in E. cbv zeta in E.
  injection E as E1 E2 E3 E4 E5 E6.
  apply enc_inj in E1, E2, E3, E4, E5, E6; try apply land_63_range.
  rewrite !land_63 in E1, E2, E3, E4, E5, E6.
  rewrite !Z.shiftr_div_pow2 in E1, E2, E3, E5, E6 by lia.
  rewrite !group_value in E1, E2, E3, E4 by assumption.
  rewrite !Z.shiftl_mul_pow2 in E5, E6 by lia.
  change (2 ^ 16) with 65536 in E5, E6.
  destruct (group_inj a0 a1 a2 b0 b1 b2) as (-> & -> & ->); try assumption.
  rewrite (tail_inj a3 b3); try assumption. reflexivity.
Qed.

Lemma PutUint32_bytes o v :
  exists b0 b1 b2 b3,
    PutUint32 o v = [b0; b1; b2; b3] /\
    0 <= b0 < 256 /\ 0 <= b1 < 256 /\ 0 <= b2 < 256 /\ 0 <= b3 < 256.
Proof.
  destruct o; cbn [PutUint32]; do 4 eexists; (split; [reflexivity|]);
    repeat split; apply byte_of_range.
Qed.

(** C9. For every input and either byte order, the fingerprint has
    exactly 6 characters, all of them in the URL-safe base64 alphabet
    (A-Z, a-z, 0-9, '-', '_'): it encodes exactly 4 checksum bytes
    without padding. *)
Theorem genHash_six_url_safe_chars (native : ByteOrder) (input : string) :
  String.length (genHash native input) = 6%nat /\
  all_chars is_url_safe (genHash native input) = true /\
  List.length (PutUint32 native (adler32_Sum32 input)) = 4%nat.
Proof.
  unfold genHash.
  destruct (PutUint32_bytes native (adler32_Sum32 input))
    as (b0 & b1 & b2 & b3 & -> & _).
  rewrite EncodeToString_4. cbv zeta.
  split; [reflexivity|]. split; [|reflexivity].
  cbn [all_chars]. rewrite !enc_url_safe by apply land_63_range. reflexivity.
Qed.

(** C4 (as the code has it). The fingerprint is the unpadded URL-safe
    base64 encoding of the Adler-32 checksum serialized in the byte
    order of the machine: it is a function of the input bytes and of
    that byte order, and a little-endian and a big-endian machine agree
    on it exactly when the four bytes of the checksum read the same in
    both directions. *)
Theorem genHash_follows_native_byte_order (input : string) :
  let checksum := adler32_Sum32 input in
  (forall native, genHash native input = EncodeToString (PutUint32 native checksum)) /\
  (genHash LittleEndian input = genHash BigEndian input <->
   byte_of checksum = byte_of (Z.shiftr checksum 24) /\
   byte_of (Z.shiftr checksum 8) = byte_of (Z.shiftr checksum 16)).
Proof.
  intros checksum. split; [reflexivity|].
  unfold genHash. fold checksum. cbn [PutUint32]. split.
  - intros E. apply EncodeToString_4_inj in E; try apply byte_of_range.
    injection E as E0 E1 _ _. split; assumption.
  - intros [E0 E1]. rewrite E0, E1. reflexivity.
Qed.

(** C4 (as stated) fails: on the empty input the two byte orders give
    different fingerprints. *)
Lemma genHash_depends_on_byte_order :
  genHash LittleEndian "" = "AQAAAA" /\
  genHash BigEndian "" = "AAAAAQ" /\
  genHash LittleEndian "" <> genHash BigEndian "".
Proof. repeat split. discriminate. Qed.

End HasherFacts.

(** ** The collector *)

Module AggregatorFacts.

Section Facts.

Variable NativeEndian : ByteOrder.
Variable NewLexer : string -> Lexer.
Variable Quote : string -> string.

Abbreviation Classes := (Classes NativeEndian NewLexer).
Abbreviation C := (C NativeEndian NewLexer Quote).
Abbreviation Process := (Process NativeEndian NewLexer).

(** What a call of [Classes] does, by cases on the cache and on
    [Process]. *)
Lemma Classes_cases (c : Collector) (ruleset : string) :
  (exists m, rules c ≫= (fun r => r !! ruleset) = Some m /\
             Classes c ruleset = (Mapping m, c)) \/
  (exists err, rules c ≫= (fun r => r !! ruleset) = None /\
               Process ruleset = Fail err /\
               Classes c ruleset = (LookupError err, c)) \/
  (exists css m c', rules c ≫= (fun r => r !! ruleset) = None /\
                    Process ruleset = Ok css m /\
                    Classes c ruleset = (Mapping m, c') /\
                    rules c' ≫= (fun r => r !! ruleset) = Some m /\
                    styles c' = (styles c +:+ css) +:+ newline).
Proof.
  unfold Aggregator.Classes.
  destruct (rules c ≫= _) as [m|] eqn:Hc.
  - left. eauto.
  - right. destruct (Transformer.Process _ _ _) as [css m|err] eqn:Hp.
    + right. do 3 eexists. repeat split; try reflexivity.
      cbn. apply lookup_insert_eq.
    + left. eauto.
Qed.

(** C7. A second call of [Classes] with the same ruleset text returns
    what the first call returned and leaves the collector, and so its
    buffer, as the first call left it; the first call appends the
    rewritten output and a newline when the text is new and [Process]
    succeeds, and nothing otherwise. *)
Theorem Classes_twice (c : Collector) (ruleset : string) :
  let first := Classes c ruleset in
  let second := Classes (snd first) ruleset in
  fst second = fst first /\
  snd second = snd first /\
  styles (snd second) = styles (snd first) /\
  match rules c ≫= (fun r => r !! ruleset), Process ruleset with
  | None, Ok css _ => styles (snd first) = (styles c +:+ css) +:+ newline
  | _, _ => styles (snd first) = styles c
  end.
Proof.
  cbv zeta.
  destruct (Classes_cases c ruleset)
    as [(m & Hc & E) | [(err & Hc & Hp & E) | (css & m & c' & Hc & Hp & E & Hc' & Hs)]];
    rewrite E; cbn [fst snd].
  - rewrite E, Hc. cbn. auto.
  - rewrite E, Hc, Hp. cbn. auto.
  - rewrite Hc, Hp.
    destruct (Classes_cases c' ruleset)
      as [(m' & Hm' & E') | [(? & Hn & _) | (? & ? & ? & Hn & _)]];
      try congruence.
    rewrite E'. cbn. assert (m' = m) as -> by congruence. auto.
Qed.

(** The loop of [C] panics at the first requested name that the mapping
    lacks. *)
Lemma C_loop_missing (mapping : gmap string string) (className : list string) :
  forall i sb name,
    In name className -> mapping !! name = None ->
    exists before missing after,
      className = (before ++ missing :: after)%list /\
      Forall (fun n => is_Some (mapping !! n)) before /\
      mapping !! missing = None /\
      C_loop Quote mapping i className sb =
        Panics (PanicString (no_class_found Quote missing)).
Proof.
  induction className as [|n className IH]; intros i sb name Hin Hnone.
  - destruct Hin.
  - cbn [C_loop]. destruct (mapping !! n) as [mapped|] eqn:Hn.
    + destruct Hin as [->|Hin]; [congruence|].
      destruct (IH (S i) ((if decide (i <> 0%nat) then sb +:+ " " else sb) +:+ mapped)
                  name Hin Hnone)
        as (before & missing & after & -> & Hb & Hm & E).
      exists (n :: before), missing, after. repeat split; try assumption.
      constructor; [rewrite Hn; eauto | assumption].
    + exists [], n, className. repeat split; try assumption. constructor.
Qed.

(** C5. When some requested class name is absent from the mapping of
    the ruleset, [C] does not return a node: it panics with the message
    [no class found] followed by the quoted name of the first requested
    name that is absent. *)
Theorem C_missing_class (c c' : Collector) (ruleset : string)
    (className : list string) (mapping : gmap string string) (name : string) :
  Classes c ruleset = (Mapping mapping, c') ->
  In name className ->
  mapping !! name = None ->
  exists before missing after,
    className = (before ++ missing :: after)%list /\
    Forall (fun n => is_Some (mapping !! n)) before /\
    mapping !! missing = None /\
    C c ruleset className =
      (Panics (PanicString ("no class found " +:+ Quote missing)), c') /\
    forall node, fst (C c ruleset className) <> Returns node.
Proof.
  intros Hcl Hin Hnone.
  destruct (C_loop_missing mapping className 0%nat EmptyString name Hin Hnone)
    as (before & missing & after & Hsplit & Hb & Hm & E).
  exists before, missing, after.
  assert (Aggregator.C NativeEndian NewLexer Quote c ruleset className =
          (Panics (PanicString (no_class_found Quote missing)), c')) as HC.
  { unfold Aggregator.C. rewrite Hcl.
    destruct className as [|n0 [|n1 rest]].
    - destruct Hin.
    - destruct before as [|b before]; cbn in Hsplit.
      + injection Hsplit as -> _. rewrite Hm. reflexivity.
      + injection Hsplit as _ Hnil. destruct before; discriminate.
    - rewrite E. reflexivity. }
  repeat split; try assumption.
  intros node. rewrite HC. discriminate.
Qed.

End Facts.

Section Rendering.

Variable NativeEndian : ByteOrder.
Variable NewLexer : string -> Lexer.
Variable Writer : Type.
Variable Write : Writer -> string -> Writer * (nat * option error).

Abbreviation Classes := (Classes NativeEndian NewLexer).
Abbreviation Render := (Render Writer Write).

Lemma Buffer_WriteTo_consumes (buf : string) (w : Writer) :
  let '(r, buf', _) := Buffer_WriteTo Writer Write buf w in
  (exists n, buf' = string_drop n buf) /\
  match r with
  | Returns None => buf' = EmptyString
  | _ => True
  end.
Proof.
  unfold Buffer_WriteTo.
  destruct (decide _) as [Hpos|Hzero].
  - destruct (Write w buf) as [w' [m e]].
    destruct (decide _) as [Hbig|Hle].
    + split; [exists 0%nat; reflexivity | exact I].
    + destruct e as [err|].
      * split; [eauto | exact I].
      * destruct (decide _) as [Hshort|Hfull].
        -- split; [eauto | exact I].
        -- split; [|reflexivity]. exists (String.length buf).
           clear. induction buf as [|x buf IH]; [reflexivity | exact IH].
  - split; [|reflexivity]. exists 0%nat.
    destruct buf; [reflexivity | cbn in Hzero; lia].
Qed.

(** C6 (as the code has it). A call of [Classes] leaves the buffer as it
    was or strictly longer, by the rewritten output and a newline.
    [Render] hands the buffered bytes to the sink and consumes them:
    whatever the sink does, the buffer afterwards is what remains of the
    old one after dropping some of its first bytes, the cache is
    untouched, and after a [Render] that returns no error the buffer is
    empty. Into a sink that keeps its bytes, [Render] emits the open
    tag, the buffered bytes and the close tag, and leaves the buffer
    empty. *)
Theorem buffer_grows_until_rendered (c : Collector) :
  (forall ruleset,
     styles (snd (Classes c ruleset)) = styles c \/
     exists css, styles (snd (Classes c ruleset)) = styles c +:+ (css +:+ newline)) /\
  (forall w,
     let '(r, c', _) := Render c w in
     rules c' = rules c /\
     (exists n, styles c' = string_drop n (styles c)) /\
     match r with
     | Returns None => styles c' = EmptyString
     | _ => True
     end) /\
  (forall w,
     Aggregator.Render string MemWrite c w =
     (Returns None, {| rules := rules c; styles := EmptyString |},
      ((w +:+ "<style>") +:+ styles c) +:+ "</style>")).
Proof.
  split; [|split].
  - intros ruleset.
    destruct (AggregatorFacts.Classes_cases NativeEndian NewLexer c ruleset)
      as [(m & _ & E) | [(err & _ & _ & E) | (css & m & c' & _ & _ & E & _ & Hs)]];
      rewrite E; cbn [snd]; auto.
    right. exists css. rewrite Hs. apply StringFacts.app_assoc.
  - intros w. unfold Aggregator.Render.
    destruct (Write w "<style>") as [w1 [n1 e1]].
    destruct e1 as [err|].
    { repeat split. exists 0%nat. reflexivity. }
    pose proof (Buffer_WriteTo_consumes (styles c) w1) as H.
    destruct (Buffer_WriteTo Writer Write (styles c) w1) as [[r buf] w2].
    destruct H as [Hdrop Hr].
    destruct r as [[err|]|v].
    + repeat split. exact Hdrop.
    + destruct (Write w2 "</style>") as [w3 [n3 e3]].
      destruct e3; repeat split; try exact Hdrop; exact Hr.
    + repeat split. exact Hdrop.
  - intros w. unfold Aggregator.Render, Buffer_WriteTo, MemWrite.
    destruct (decide (0 < String.length (styles c))%nat) as [Hpos|Hzero].
    + destruct (decide (String.length (styles c) < String.length (styles c))%nat);
        [lia|].
      destruct (decide (String.length (styles c) <> String.length (styles c)));
        [contradiction|].
      reflexivity.
    + destruct (styles c) as [|x buf]; [|cbn in Hzero; lia].
      now rewrite StringFacts.app_nil_r.
Qed.

End Rendering.

End AggregatorFacts.

(** ** The scope transformer *)

Module TransformerFacts.

Import StringFacts.

Section Steps.

Variable hash : string.
Variable R : Type.
Variable atEnd : State -> Buffers -> R.

(** One iteration of each loop. *)
Lemma mainLoop_cons zt data zz1 b :
  mainLoop hash atEnd ((zt, data) :: zz1) b =
  let b := tmp_Write data b in
  if decide (zt = ColonToken) then
    match zz1 with
    | [] => atEnd PendingGlobalCheck b
    | (zt, data) :: zz2 =>
        if decide (zt <> IdentToken) then
          mainLoop hash atEnd zz2 (out_Write data (tmp_WriteTo_out b))
        else if decide (data <> "global") then
          mainLoop hash atEnd zz2 (out_Write data (tmp_WriteTo_out b))
        else globalLoop hash atEnd zz2 0 b
    end
  else if decide (zt = AtKeywordToken) then
    let b := tmp_WriteTo_out b in
    match zz1 with
    | [] => atEnd PendingAtRuleCheck b
    | (zt, data) :: zz2 =>
        let b := out_Write data b in
        if decide (zt <> IdentToken) then mainLoop hash atEnd zz2 b
        else if decide (data <> "media") then mainLoop hash atEnd zz2 b
        else mediaLoop hash atEnd zz2 b
    end
  else if decide (zt = DelimToken /\ data = ".") then
    let b := tmp_WriteTo_out b in
    match zz1 with
    | [] => atEnd PendingClassName b
    | (zt, data) :: zz2 =>
        if decide (zt <> IdentToken) then mainLoop hash atEnd zz2 (out_Write data b)
        else mainLoop hash atEnd zz2 (tmp_Reset (addScopedName hash data b))
    end
  else mainLoop hash atEnd zz1 (tmp_Reset (tmp_WriteTo_out b)).
Proof. reflexivity. Qed.

Lemma globalLoop_cons zt data zz1 braceCount b :
  globalLoop hash atEnd ((zt, data) :: zz1) braceCount b =
  if decide (zt = LeftBraceToken) then
    globalLoop hash atEnd zz1 (braceCount + 1)
      (if decide (braceCount <> 0) then out_Write data b else b)
  else if decide (zt = RightBraceToken) then
    if decide (braceCount - 1 <= 0) then
      mainLoop hash atEnd zz1
        (tmp_Reset (if decide (braceCount <> 1) then out_Write data b else b))
    else
      globalLoop hash atEnd zz1 (braceCount - 1)
        (if decide (braceCount <> 1) then out_Write data b else b)
  else globalLoop hash atEnd zz1 braceCount (out_Write data b).
Proof. reflexivity. Qed.

Lemma mediaLoop_cons zt data zz1 b :
  mediaLoop hash atEnd ((zt, data) :: zz1) b =
  let b := out_Write data b in
  if decide (zt = DelimToken /\ data = ".") then
    match zz1 with
    | [] => atEnd MediaPendingClassName b
    | (zt, data) :: zz2 =>
        if decide (zt <> IdentToken) then mediaLoop hash atEnd zz2 (out_Write data b)
        else mediaLoop hash atEnd zz2 (addScopedName hash data b)
    end
  else if decide (zt = LeftBraceToken) then mediaLoop hash atEnd zz1 b
  else if decide (zt = RightBraceToken) then mainLoop hash atEnd zz1 (tmp_Reset b)
  else mediaLoop hash atEnd zz1 b.
Proof. reflexivity. Qed.

Lemma mainLoop_nil b : mainLoop hash atEnd [] b = atEnd Normal b.
Proof. reflexivity. Qed.

Lemma globalLoop_nil braceCount b :
  globalLoop hash atEnd [] braceCount b = atEnd (GlobalBlock braceCount) b.
Proof. reflexivity. Qed.

Lemma mediaLoop_nil b : mediaLoop hash atEnd [] b = atEnd MediaBlock b.
Proof. reflexivity. Qed.

Lemma out_Write_nil b : out_Write EmptyString b = b.
Proof. destruct b. unfold out_Write. cbn. now rewrite app_nil_r. Qed.

Lemma out_Write_app x y b : out_Write y (out_Write x b) = out_Write (x +:+ y) b.
Proof. unfold out_Write. cbn. now rewrite app_assoc. Qed.

(** Inside a [:global] block, tokens other than braces are copied. *)
Lemma globalLoop_copies pre : forall zz braceCount b,
  forallb (fun t => negb (is_brace t)) pre = true ->
  globalLoop hash atEnd (pre ++ zz) braceCount b =
  globalLoop hash atEnd zz braceCount (out_Write (payload pre) b).
Proof.
  induction pre as [|[zt data] pre IH]; intros zz braceCount b Hpre.
  - cbn [app payload]. now rewrite out_Write_nil.
  - cbn [forallb] in Hpre. apply andb_true_iff in Hpre as [Ht Hpre].
    unfold is_brace in Ht. cbn [fst] in Ht.
    apply negb_true_iff, orb_false_iff in Ht as [Hl Hr].
    apply bool_decide_eq_false in Hl, Hr.
    cbn [app]. rewrite globalLoop_cons.
    destruct (decide (zt = LeftBraceToken)); [contradiction|].
    destruct (decide (zt = RightBraceToken)); [contradiction|].
    rewrite IH by exact Hpre. cbn [payload snd]. now rewrite out_Write_app.
Qed.

(** Inside the wrapping braces, a properly nested run of tokens is
    copied whole, and the right brace that follows it ends the block and
    is dropped. *)
Lemma globalLoop_balanced inner : forall depth rbrace zz b,
  balanced_from depth inner = true ->
  globalLoop hash atEnd (inner ++ (RightBraceToken, rbrace) :: zz) (Z.of_nat depth + 1) b =
  mainLoop hash atEnd zz (tmp_Reset (out_Write (payload inner) b)).
Proof.
  induction inner as [|[zt data] inner IH]; intros depth rbrace zz b Hbal.
  - cbn [balanced_from] in Hbal. apply bool_decide_eq_true in Hbal. subst depth.
    cbn [app payload]. rewrite globalLoop_cons, out_Write_nil.
    destruct (decide (RightBraceToken = LeftBraceToken)); [discriminate|].
    destruct (decide (RightBraceToken = RightBraceToken)); [|contradiction].
    change (Z.of_nat 0 + 1) with 1.
    destruct (decide (1 - 1 <= 0)); [|lia].
    destruct (decide (1 <> 1)); [contradiction|reflexivity].
  - cbn [balanced_from fst] in Hbal. cbn [app payload snd].
    rewrite globalLoop_cons, <- out_Write_app.
    destruct (decide (zt = LeftBraceToken)) as [->|Hl].
    + rewrite bool_decide_eq_true_2 in Hbal by reflexivity.
      destruct (decide (Z.of_nat depth + 1 <> 0)); [|lia].
      replace (Z.of_nat depth + 1 + 1) with (Z.of_nat (S depth) + 1) by lia.
      now apply IH.
    + rewrite bool_decide_eq_false_2 in Hbal by exact Hl.
      destruct (decide (zt = RightBraceToken)) as [->|Hr].
      * rewrite bool_decide_eq_true_2 in Hbal by reflexivity.
        destruct depth as [|depth]; [discriminate|].
        destruct (decide (Z.of_nat (S depth) + 1 - 1 <= 0)); [lia|].
        destruct (decide (Z.of_nat (S depth) + 1 <> 1)); [|lia].
        replace (Z.of_nat (S depth) + 1 - 1) with (Z.of_nat depth + 1) by lia.
        now apply IH.
      * rewrite bool_decide_eq_false_2 in Hbal by exact Hr.
        now apply IH.
Qed.

(** Inside the wrapping braces, a run of tokens that never closes the
    block is copied whole, and the stream runs out inside the block. *)
Lemma globalLoop_unclosed inner : forall depth b,
  unclosed_from depth inner = true ->
  exists braceCount,
    globalLoop hash atEnd inner (Z.of_nat depth + 1) b =
    atEnd (GlobalBlock braceCount) (out_Write (payload inner) b).
Proof.
  induction inner as [|[zt data] inner IH]; intros depth b Hopen.
  - eexists. cbn [payload]. rewrite out_Write_nil. reflexivity.
  - cbn [unclosed_from fst] in Hopen. cbn [payload snd].
    rewrite globalLoop_cons.
    destruct (decide (zt = LeftBraceToken)) as [->|Hl].
    + rewrite bool_decide_eq_true_2 in Hopen by reflexivity.
      destruct (decide (Z.of_nat depth + 1 <> 0)); [|lia].
      replace (Z.of_nat depth + 1 + 1) with (Z.of_nat (S depth) + 1) by lia.
      destruct (IH (S depth) (out_Write data b) Hopen) as [bc E].
      exists bc. now rewrite E, out_Write_app.
    + rewrite bool_decide_eq_false_2 in Hopen by exact Hl.
      destruct (decide (zt = RightBraceToken)) as [->|Hr].
      * rewrite bool_decide_eq_true_2 in Hopen by reflexivity.
        destruct depth as [|depth]; [discriminate|].
        destruct (decide (Z.of_nat (S depth) + 1 - 1 <= 0)); [lia|].
        destruct (decide (Z.of_nat (S depth) + 1 <> 1)); [|lia].
        replace (Z.of_nat (S depth) + 1 - 1) with (Z.of_nat depth + 1) by lia.
        destruct (IH depth (out_Write data b) Hopen) as [bc E].
        exists bc. now rewrite E, out_Write_app.
      * rewrite bool_decide_eq_false_2 in Hopen by exact Hr.
        destruct (IH depth (out_Write data b) Hopen) as [bc E].
        exists bc. now rewrite E, out_Write_app.
Qed.

End Steps.

(** *** The media loop *)

Section Media.

Variable hash : string.
Variable R : Type.
Variable atEnd : State -> Buffers -> R.

(** The media loop copies tokens other than right braces and [.]
    delimiters, left braces among them, and the first right brace it
    reads ends it, however many left braces came before. *)
Lemma mediaLoop_ends_at_first_right_brace pre : forall rbrace zz b,
  forallb (fun t => negb (bool_decide (fst t = RightBraceToken)) && negb (is_dot t)) pre = true ->
  mediaLoop hash atEnd (pre ++ (RightBraceToken, rbrace) :: zz) b =
  mainLoop hash atEnd zz (tmp_Reset (out_Write (payload pre +:+ rbrace) b)).
Proof.
  induction pre as [|[zt data] pre IH]; intros rbrace zz b Hpre.
  - cbn [app payload]. rewrite mediaLoop_cons. cbv zeta.
    destruct (decide (RightBraceToken = DelimToken /\ rbrace = ".")) as [[? _]|_];
      [discriminate|].
    destruct (decide (RightBraceToken = LeftBraceToken)); [discriminate|].
    destruct (decide (RightBraceToken = RightBraceToken)); [|contradiction].
    reflexivity.
  - cbn [forallb fst] in Hpre.
    apply andb_true_iff in Hpre as [Ht Hpre].
    apply andb_true_iff in Ht as [Hr Hd].
    apply negb_true_iff, bool_decide_eq_false in Hr.
    apply negb_true_iff in Hd. unfold is_dot in Hd. apply bool_decide_eq_false in Hd.
    cbn [app payload snd]. rewrite mediaLoop_cons. cbv zeta.
    destruct (decide (zt = DelimToken /\ data = ".")); [contradiction|].
    rewrite app_assoc, <- out_Write_app.
    destruct (decide (zt = LeftBraceToken)); [now apply IH|].
    destruct (decide (zt = RightBraceToken)); [contradiction|].
    now apply IH.
Qed.

End Media.

Section Blocks.

Variable NativeEndian : ByteOrder.
Variable NewLexer : string -> Lexer.

Abbreviation Process := (Process NativeEndian NewLexer).

(** C2. When the input is a [:global] block (a colon, the identifier
    [global], tokens other than braces, a left brace, properly nested
    content and the matching right brace), [Process] succeeds, its
    output is the bytes of the source without the [:global] marker and
    the two wrapping braces, and its mapping is empty: nothing inside
    the block is scoped. *)
Theorem global_block_verbatim (styles colon lbrace rbrace : string)
    (pre inner : list Token) :
  NewLexer styles =
    {| toks := (ColonToken, colon) :: (IdentToken, "global") ::
               pre ++ (LeftBraceToken, lbrace) :: inner ++ [(RightBraceToken, rbrace)];
       lerr := EOF |} ->
  forallb (fun t => negb (is_brace t)) pre = true ->
  balanced_from 0 inner = true ->
  Process styles = Ok (payload pre +:+ payload inner) ∅.
Proof.
  intros Hlex Hpre Hinner.
  unfold Transformer.Process, run. rewrite Hlex. cbn [toks lerr].
  rewrite mainLoop_cons. cbv zeta.
  destruct (decide (ColonToken = ColonToken)); [|contradiction].
  destruct (decide (IdentToken <> IdentToken)); [contradiction|].
  destruct (decide ("global" <> "global")); [contradiction|].
  rewrite globalLoop_copies by exact Hpre.
  rewrite globalLoop_cons.
  destruct (decide (LeftBraceToken = LeftBraceToken)); [|contradiction].
  destruct (decide (0 <> 0)); [contradiction|].
  change (0 + 1) with (Z.of_nat 0 + 1).
  rewrite globalLoop_balanced by exact Hinner.
  reflexivity.
Qed.

(** C8. When the input is a [:global] block whose wrapping brace is
    never closed (a colon, the identifier [global], tokens other than
    braces, a left brace, and content whose right braces only close
    braces opened inside it), [Process] reports no error: it succeeds at
    the end of the stream with the bytes of the source without the
    [:global] marker and the wrapping left brace, and an empty
    mapping. *)
Theorem unclosed_global_block (styles colon lbrace : string) (pre inner : list Token) :
  NewLexer styles =
    {| toks := (ColonToken, colon) :: (IdentToken, "global") ::
               pre ++ (LeftBraceToken, lbrace) :: inner;
       lerr := EOF |} ->
  forallb (fun t => negb (is_brace t)) pre = true ->
  unclosed_from 0 inner = true ->
  Process styles = Ok (payload pre +:+ payload inner) ∅.
Proof.
  intros Hlex Hpre Hinner.
  unfold Transformer.Process, run. rewrite Hlex. cbn [toks lerr].
  rewrite mainLoop_cons. cbv zeta.
  destruct (decide (ColonToken = ColonToken)); [|contradiction].
  destruct (decide (IdentToken <> IdentToken)); [contradiction|].
  destruct (decide ("global" <> "global")); [contradiction|].
  rewrite globalLoop_copies by exact Hpre.
  rewrite globalLoop_cons.
  destruct (decide (LeftBraceToken = LeftBraceToken)); [|contradiction].
  destruct (decide (0 <> 0)); [contradiction|].
  change (0 + 1) with (Z.of_nat 0 + 1).
  edestruct globalLoop_unclosed as [bc ->]; [exact Hinner|].
  reflexivity.
Qed.

End Blocks.

(** *** A colon at the end of the stream *)

Section TrailingColon.

Variable colon : string.
Variable err : error.

Let stop : State -> Buffers -> State := fun s _ => s.
Let ret : State -> Buffers -> result := fun _ => returnAtError err.

(** When the tokens [pre] leave a loop in state [Normal], a colon after
    them changes nothing in what the loop returns. The three loops are
    treated together, by induction on a bound on the length of [pre]. *)
Lemma colon_after_Normal (n : nat) : forall pre, (length pre <= n)%nat ->
  (forall h h' b b',
     mainLoop h' stop pre b' = Normal ->
     mainLoop h ret (pre ++ [(ColonToken, colon)]) b = mainLoop h ret pre b) /\
  (forall h h' bc b b',
     globalLoop h' stop pre bc b' = Normal ->
     globalLoop h ret (pre ++ [(ColonToken, colon)]) bc b = globalLoop h ret pre bc b) /\
  (forall h h' b b',
     mediaLoop h' stop pre b' = Normal ->
     mediaLoop h ret (pre ++ [(ColonToken, colon)]) b = mediaLoop h ret pre b).
Proof.
  induction n as [|n IH]; intros pre Hlen.
  { destruct pre; [|cbn in Hlen; lia].
    repeat split; intros; first [discriminate | reflexivity]. }
  destruct pre as [|[zt data] zz1].
  { repeat split; intros; first [discriminate | reflexivity]. }
  cbn [length] in Hlen.
  split; [|split].
  - intros h h' b b'. cbn [app]. rewrite !mainLoop_cons. cbv zeta.
    repeat (destruct (decide _)).
    all: try (destruct zz1 as [|[zt2 data2] zz2]; cbn [app]; [discriminate|];
              repeat (destruct (decide _));
              apply (IH zz2); cbn [length] in *; lia).
    apply (IH zz1); lia.
  - intros h h' bc b b'. cbn [app]. rewrite !globalLoop_cons.
    repeat (destruct (decide _)); apply (IH zz1); lia.
  - intros h h' b b'. cbn [app]. rewrite !mediaLoop_cons. cbv zeta.
    repeat (destruct (decide _)).
    all: try (destruct zz1 as [|[zt2 data2] zz2]; cbn [app]; [discriminate|];
              repeat (destruct (decide _));
              apply (IH zz2); cbn [length] in *; lia).
    all: apply (IH zz1); lia.
Qed.

End TrailingColon.

(** With [io.EOF] at the end of the tokens, every loop returns a
    success. *)
Lemma loops_succeed (hash : string) (n : nat) : forall zz, (length zz <= n)%nat ->
  (forall b, exists css classes,
     mainLoop hash (fun _ => returnAtError EOF) zz b = Ok css classes) /\
  (forall bc b, exists css classes,
     globalLoop hash (fun _ => returnAtError EOF) zz bc b = Ok css classes) /\
  (forall b, exists css classes,
     mediaLoop hash (fun _ => returnAtError EOF) zz b = Ok css classes).
Proof.
  induction n as [|n IH]; intros zz Hlen.
  { destruct zz; [|cbn in Hlen; lia]. repeat split; intros; do 2 eexists; reflexivity. }
  destruct zz as [|[zt data] zz1].
  { repeat split; intros; do 2 eexists; reflexivity. }
  cbn [length] in Hlen.
  split; [|split].
  - intros b. rewrite mainLoop_cons. cbv zeta.
    repeat (destruct (decide _)).
    all: try (destruct zz1 as [|[zt2 data2] zz2];
              [do 2 eexists; reflexivity|];
              repeat (destruct (decide _));
              apply (IH zz2); cbn [length] in *; lia).
    apply (IH zz1); lia.
  - intros bc b. rewrite globalLoop_cons.
    repeat (destruct (decide _)); apply (IH zz1); lia.
  - intros b. rewrite mediaLoop_cons. cbv zeta.
    repeat (destruct (decide _)).
    all: try (destruct zz1 as [|[zt2 data2] zz2];
              [do 2 eexists; reflexivity|];
              repeat (destruct (decide _));
              apply (IH zz2); cbn [length] in *; lia).
    all: apply (IH zz1); lia.
Qed.

Lemma run_succeeds (hash : string) (zz : Lexer) :
  lerr zz = EOF -> exists css classes, run hash zz = Ok css classes.
Proof.
  intros Herr. unfold run. rewrite Herr.
  apply (loops_succeed hash (length (toks zz)) (toks zz) (Nat.le_refl _)).
Qed.

Section TrailingColonClaim.

Variable NativeEndian : ByteOrder.
Variable NewLexer : string -> Lexer.

Abbreviation Process := (Process NativeEndian NewLexer).

(** C10 (as the code has it). When the input ends with a colon that the
    main loop reads in state [Normal] (the tokens before it leave no
    [:global] or media loop open and no read-ahead pending), [Process]
    succeeds and returns what it returns for the stream without that
    colon: the bytes of the trailing colon are not in the output. *)
Theorem trailing_colon_dropped (styles colon : string) (pre : list Token) :
  NewLexer styles = {| toks := pre ++ [(ColonToken, colon)]; lerr := EOF |} ->
  state_at_end pre = Normal ->
  Process styles = run (genHash NativeEndian styles) {| toks := pre; lerr := EOF |} /\
  exists css classes, Process styles = Ok css classes.
Proof.
  intros Hlex Hstate.
  assert (Process styles =
          run (genHash NativeEndian styles) {| toks := pre; lerr := EOF |}) as E.
  { unfold Transformer.Process, run. rewrite Hlex. cbn [toks lerr].
    destruct (colon_after_Normal colon EOF (length pre) pre (Nat.le_refl _)) as (Hm & _).
    eapply Hm. exact Hstate. }
  split; [exact E|]. rewrite E.
  now apply run_succeeds.
Qed.

End TrailingColonClaim.

(** *** Scoping of class selectors *)

Section Scoping.

Variable hash : string.

Let ret : State -> Buffers -> result := fun _ => returnAtError EOF.

(** The mapping holds [name] with its scoped name. *)
Let known (name : string) (m : gmap string string) : Prop :=
  m !! name = Some (name +:+ "_" +:+ hash).

(** A brace counter of the stream reading is never negative. *)
Let sound (inside : option Z) : Prop :=
  match inside with
  | Some n => 0 <= n
  | None => True
  end.

(** [name] is known already, or is the name of a selector still to come
    whose [.] does not follow a token that reads ahead. *)
Let pending (name : string) (m : gmap string string) (zz : list Token) : Prop :=
  known name m \/
  exists after_reader inside,
    sound inside /\ In (name, false) (bare_class_selectors after_reader inside zz).

(** The same while [Process] is in its [:global] loop with counter
    [braceCount]: the stream reading is inside a block as well, with a
    counter that is at least [braceCount]. *)
Let pending_inside (name : string) (m : gmap string string) (braceCount : Z)
    (zz : list Token) : Prop :=
  known name m \/
  exists after_reader n,
    braceCount <= n /\ In (name, false) (bare_class_selectors after_reader (Some n) zz).

(** Reading one token of the stream. *)
Lemma selectors_step name after_reader inside t rest :
  sound inside ->
  In (name, false) (bare_class_selectors after_reader inside (t :: rest)) ->
  (exists inside',
     sound inside' /\
     In (name, false) (bare_class_selectors (reads_ahead t) inside' rest)) \/
  (inside = None /\ after_reader = false /\ is_dot t = true /\
   exists rest', rest = (IdentToken, name) :: rest').
Proof.
  intros Hs Hin. cbn [bare_class_selectors] in Hin.
  destruct inside as [n|].
  - left. cbn in Hs.
    repeat case_bool_decide; eexists; (split; [|exact Hin]); cbn; lia.
  - destruct rest as [|t' rest']; [destruct Hin|].
    destruct (bool_decide (fst t = ColonToken) &&
              bool_decide (fst t' = IdentToken /\ snd t' = "global")) eqn:Hg.
    + left. exists (Some 0). split; [cbn; lia|].
      apply andb_true_iff in Hg as [_ Hg]. apply bool_decide_eq_true in Hg as [Hk _].
      cbn [bare_class_selectors]. rewrite Hk.
      rewrite bool_decide_eq_false_2 by discriminate.
      rewrite bool_decide_eq_false_2 by discriminate.
      exact Hin.
    + destruct (is_dot t && bool_decide (fst t' = IdentToken)) eqn:Hd.
      * destruct Hin as [Hin|Hin].
        -- right. injection Hin as Hname Hflag.
           apply andb_true_iff in Hd as [Hd Hk]. apply bool_decide_eq_true in Hk.
           repeat split; try assumption.
           exists rest'. destruct t' as [k d]. cbn in *. subst k d. reflexivity.
        -- left. exists None. split; [exact I | exact Hin].
      * left. exists None. split; [exact I | exact Hin].
Qed.

Lemma is_dot_false zt data :
  ~ (zt = DelimToken /\ data = ".") -> is_dot (zt, data) = false.
Proof. intros H. unfold is_dot. now apply bool_decide_eq_false_2. Qed.

Lemma is_dot_kind zt data (P : Prop) :
  zt <> DelimToken -> is_dot (zt, data) = true -> P.
Proof.
  intros Hk Hd. rewrite is_dot_false in Hd; [discriminate|]. intros [? _]. contradiction.
Qed.

Lemma pending_nil name m : pending name m [] -> known name m.
Proof. intros [H|(ar & g & _ & [])]. exact H. Qed.

Lemma pending_last name m t : pending name m [t] -> known name m.
Proof.
  intros [H|(ar & g & Hs & Hin)]; [exact H|].
  apply selectors_step in Hin; [|exact Hs].
  destruct Hin as [(g' & _ & [])|(_ & _ & _ & rest' & Hrest)]. discriminate.
Qed.

(** A token other than [.] that [Process] reads and passes over. *)
Lemma pending_skip name m t rest :
  is_dot t = false -> pending name m (t :: rest) -> pending name m rest.
Proof.
  intros Hd [H|(ar & g & Hs & Hin)]; [left; exact H|].
  apply selectors_step in Hin; [|exact Hs].
  destruct Hin as [(g' & Hs' & Hin)|(_ & _ & Hdot & _)]; [|congruence].
  right. eauto.
Qed.

(** A token that reads ahead and the token it reads, when the two are
    not a class selector. *)
Lemma pending_skip_ahead name m t t2 rest :
  reads_ahead t = true ->
  (is_dot t = true -> fst t2 <> IdentToken) ->
  pending name m (t :: t2 :: rest) -> pending name m rest.
Proof.
  intros Hr Hd [H|(ar & g & Hs & Hin)]; [left; exact H|].
  apply selectors_step in Hin; [|exact Hs].
  destruct Hin as [(g' & Hs' & Hin)|(_ & _ & Hdot & rest' & Hrest)].
  - rewrite Hr in Hin.
    apply selectors_step in Hin; [|exact Hs'].
    destruct Hin as [(g'' & Hs'' & Hin)|(_ & Hf & _)]; [|discriminate].
    right. eauto.
  - injection Hrest as -> _. exfalso. now apply (Hd Hdot).
Qed.

Lemma known_insert name d m :
  known name m -> known name (<[d := d +:+ "_" +:+ hash]> m).
Proof.
  unfold known. intros H. destruct (decide (d = name)) as [->|Hne].
  - apply lookup_insert_eq.
  - now rewrite lookup_insert_ne.
Qed.

(** A class selector that [Process] scopes. *)
Lemma pending_selector name m d rest :
  pending name m ((DelimToken, ".") :: (IdentToken, d) :: rest) ->
  pending name (<[d := d +:+ "_" +:+ hash]> m) rest.
Proof.
  intros [H|(ar & g & Hs & Hin)]; [left; now apply known_insert|].
  apply selectors_step in Hin; [|exact Hs].
  destruct Hin as [(g' & Hs' & Hin)|(_ & _ & _ & rest' & Hrest)].
  - change (reads_ahead (DelimToken, ".")) with true in Hin.
    apply selectors_step in Hin; [|exact Hs'].
    destruct Hin as [(g'' & Hs'' & Hin)|(_ & Hf & _)]; [|discriminate].
    right. eauto.
  - injection Hrest as -> _. left. apply lookup_insert_eq.
Qed.

(** The [:global] marker. *)
Lemma pending_enter_global name m colon rest :
  pending name m ((ColonToken, colon) :: (IdentToken, "global") :: rest) ->
  pending_inside name m 0 rest.
Proof.
  intros [H|(ar & g & Hs & Hin)]; [left; exact H|].
  right. destruct g as [n|].
  - exists false, n. split; [exact Hs|]. exact Hin.
  - exists false, 0. split; [lia|]. exact Hin.
Qed.

Lemma pending_inside_nil name m bc : pending_inside name m bc [] -> known name m.
Proof. intros [H|(ar & n & _ & [])]. exact H. Qed.

Lemma pending_inside_left name m bc data rest :
  pending_inside name m bc ((LeftBraceToken, data) :: rest) ->
  pending_inside name m (bc + 1) rest.
Proof.
  intros [H|(ar & n & Hle & Hin)]; [left; exact H|].
  right. exists false, (n + 1). split; [lia | exact Hin].
Qed.

Lemma pending_inside_right_out name m bc data rest :
  pending_inside name m bc ((RightBraceToken, data) :: rest) ->
  pending name m rest.
Proof.
  intros [H|(ar & n & Hle & Hin)]; [left; exact H|].
  right. cbn [bare_class_selectors fst] in Hin.
  rewrite bool_decide_eq_false_2 in Hin by discriminate.
  rewrite bool_decide_eq_true_2 in Hin by reflexivity.
  case_bool_decide.
  - exists false, None. split; [exact I | exact Hin].
  - exists false, (Some (n - 1)). split; [cbn; lia | exact Hin].
Qed.

Lemma pending_inside_right_in name m bc data rest :
  ~ bc - 1 <= 0 ->
  pending_inside name m bc ((RightBraceToken, data) :: rest) ->
  pending_inside name m (bc - 1) rest.
Proof.
  intros Hin' [H|(ar & n & Hle & Hin)]; [left; exact H|].
  right. cbn [bare_class_selectors fst] in Hin.
  rewrite bool_decide_eq_false_2 in Hin by discriminate.
  rewrite bool_decide_eq_true_2 in Hin by reflexivity.
  rewrite bool_decide_eq_false_2 in Hin by lia.
  exists false, (n - 1). split; [lia | exact Hin].
Qed.

Lemma pending_inside_other name m bc zt data rest :
  zt <> LeftBraceToken -> zt <> RightBraceToken ->
  pending_inside name m bc ((zt, data) :: rest) ->
  pending_inside name m bc rest.
Proof.
  intros Hl Hr [H|(ar & n & Hle & Hin)]; [left; exact H|].
  right. cbn [bare_class_selectors fst] in Hin.
  rewrite bool_decide_eq_false_2 in Hin by exact Hl.
  rewrite bool_decide_eq_false_2 in Hin by exact Hr.
  exists (reads_ahead (zt, data)), n. split; [exact Hle | exact Hin].
Qed.

(** The result is a success whose mapping holds [name]. *)
Let has (name : string) (r : result) : Prop :=
  exists css classes, r = Ok css classes /\ known name classes.

Lemma has_at_end name s b : known name (scopedClasses b) -> has name (ret s b).
Proof. intros H. exists (out b), (scopedClasses b). split; [reflexivity | exact H]. Qed.

(** Whatever is pending when a loop starts is in the mapping when
    [Process] returns. The three loops are treated together, by
    induction on a bound on the number of tokens left. *)
Lemma pending_is_recorded (n : nat) : forall zz, (length zz <= n)%nat ->
  (forall b name,
     pending name (scopedClasses b) zz -> has name (mainLoop hash ret zz b)) /\
  (forall b bc name,
     pending_inside name (scopedClasses b) bc zz ->
     has name (globalLoop hash ret zz bc b)) /\
  (forall b name,
     pending name (scopedClasses b) zz -> has name (mediaLoop hash ret zz b)).
Proof.
  induction n as [|n IH]; intros zz Hlen.
  { destruct zz; [|cbn in Hlen; lia].
    split; [|split]; intros;
      rewrite ?mainLoop_nil, ?globalLoop_nil, ?mediaLoop_nil; apply has_at_end;
      eauto using pending_nil, pending_inside_nil. }
  destruct zz as [|[zt data] zz1].
  { split; [|split]; intros;
      rewrite ?mainLoop_nil, ?globalLoop_nil, ?mediaLoop_nil; apply has_at_end;
      eauto using pending_nil, pending_inside_nil. }
  cbn [length] in Hlen.
  split; [|split].
  - intros b name Hp. rewrite mainLoop_cons. cbv zeta.
    destruct (decide (zt = ColonToken)) as [->|Hcolon].
    { destruct zz1 as [|[zt2 data2] zz2].
      { apply has_at_end. exact (pending_last _ _ _ Hp). }
      assert (pending name (scopedClasses b) zz2 ->
              has name (mainLoop hash ret zz2
                          (out_Write data2 (tmp_WriteTo_out (tmp_Write data b))))) as Hgo.
      { intros Hp'. apply (IH zz2); [cbn [length] in Hlen; lia | exact Hp']. }
      destruct (decide (zt2 <> IdentToken)) as [Hk|Hk].
      { apply Hgo. eapply (fun A B => pending_skip_ahead _ _ _ _ _ A B Hp);
          [reflexivity | apply is_dot_kind; discriminate]. }
      destruct (decide (data2 <> "global")) as [Hd|Hd].
      { apply Hgo. eapply (fun A B => pending_skip_ahead _ _ _ _ _ A B Hp);
          [reflexivity | apply is_dot_kind; discriminate]. }
      apply dec_stable in Hk. apply dec_stable in Hd. subst zt2 data2.
      apply (IH zz2); [cbn [length] in Hlen; lia|].
      exact (pending_enter_global _ _ _ _ Hp). }
    destruct (decide (zt = AtKeywordToken)) as [->|Hat].
    { destruct zz1 as [|[zt2 data2] zz2].
      { apply has_at_end. exact (pending_last _ _ _ Hp). }
      cbv zeta.
      assert (pending name (scopedClasses b) zz2) as Hp'.
      { eapply (fun A B => pending_skip_ahead _ _ _ _ _ A B Hp);
          [reflexivity | apply is_dot_kind; discriminate]. }
      repeat (destruct (decide _));
        apply (IH zz2); try (cbn [length] in Hlen; lia); exact Hp'. }
    destruct (decide (zt = DelimToken /\ data = ".")) as [[-> ->]|Hdot].
    { destruct zz1 as [|[zt2 data2] zz2].
      { apply has_at_end. exact (pending_last _ _ _ Hp). }
      destruct (decide (zt2 <> IdentToken)) as [Hk|Hk].
      { apply (IH zz2); [cbn [length] in Hlen; lia|].
        eapply (fun A B => pending_skip_ahead _ _ _ _ _ A B Hp);
          [reflexivity | intros _; exact Hk]. }
      apply dec_stable in Hk. subst zt2.
      apply (IH zz2); [cbn [length] in Hlen; lia|].
      exact (pending_selector _ _ _ _ Hp). }
    apply (IH zz1); [lia|].
    eapply pending_skip; [|exact Hp]. now apply is_dot_false.
  - intros b bc name Hp. rewrite globalLoop_cons.
    destruct (decide (zt = LeftBraceToken)) as [->|Hl].
    { apply (IH zz1); [lia|].
      destruct (decide _); exact (pending_inside_left _ _ _ _ _ Hp). }
    destruct (decide (zt = RightBraceToken)) as [->|Hr].
    { destruct (decide (bc - 1 <= 0)) as [Hout|Hstay].
      - apply (IH zz1); [lia|].
        destruct (decide _); exact (pending_inside_right_out _ _ _ _ _ Hp).
      - apply (IH zz1); [lia|].
        destruct (decide _); exact (pending_inside_right_in _ _ _ _ _ Hstay Hp). }
    apply (IH zz1); [lia|].
    exact (pending_inside_other _ _ _ _ _ _ Hl Hr Hp).
  - intros b name Hp. rewrite mediaLoop_cons. cbv zeta.
    destruct (decide (zt = DelimToken /\ data = ".")) as [[-> ->]|Hdot].
    { destruct zz1 as [|[zt2 data2] zz2].
      { apply has_at_end. exact (pending_last _ _ _ Hp). }
      destruct (decide (zt2 <> IdentToken)) as [Hk|Hk].
      { apply (IH zz2); [cbn [length] in Hlen; lia|].
        eapply (fun A B => pending_skip_ahead _ _ _ _ _ A B Hp);
          [reflexivity | intros _; exact Hk]. }
      apply dec_stable in Hk. subst zt2.
      apply (IH zz2); [cbn [length] in Hlen; lia|].
      exact (pending_selector _ _ _ _ Hp). }
    assert (pending name (scopedClasses b) zz1) as Hp'.
    { eapply pending_skip; [|exact Hp]. now apply is_dot_false. }
    repeat (destruct (decide _)); apply (IH zz1); try lia; exact Hp'.
Qed.

End Scoping.

Section ScopingClaim.

Variable NativeEndian : ByteOrder.
Variable NewLexer : string -> Lexer.

(** C1 (as the code has it). For every input whose lexer ends with
    [io.EOF], every bare class selector outside a [:global] block whose
    [.] does not immediately follow a colon, an at-keyword or another
    [.] delimiter is recorded in the mapping that [Process] returns: the
    identifier is a key and its value is the identifier, an underscore
    and the fingerprint of the input. *)
Theorem scoping_completeness (styles name : string) :
  lerr (NewLexer styles) = EOF ->
  In (name, false) (bare_class_selectors false None (toks (NewLexer styles))) ->
  records NativeEndian NewLexer styles name.
Proof.
  intros Herr Hin. unfold records, Transformer.Process, run. rewrite Herr.
  destruct (pending_is_recorded (genHash NativeEndian styles)
              (length (toks (NewLexer styles))) (toks (NewLexer styles))
              (Nat.le_refl _)) as (Hmain & _).
  apply Hmain. right. exists false, None. split; [exact I | exact Hin].
Qed.

End ScopingClaim.

End TransformerFacts.

(** C2, on the payload of the package's test [GlobalKeyword]. *)
Lemma global_block_verbatim_test :
  Process LittleEndian RefLexer.NewLexer
    ":global {.test-class { color: red; font-size: large; }}" =
  Ok " .test-class { color: red; font-size: large; }" ∅.
Proof.
  apply (TransformerFacts.global_block_verbatim LittleEndian RefLexer.NewLexer
           ":global {.test-class { color: red; font-size: large; }}" ":" "{" "}"
           [(WhitespaceToken, " ")]
           [(DelimToken, "."); (IdentToken, "test-class"); (WhitespaceToken, " ");
            (LeftBraceToken, "{"); (WhitespaceToken, " "); (IdentToken, "color");
            (ColonToken, ":"); (WhitespaceToken, " "); (IdentToken, "red");
            (SemicolonToken, ";"); (WhitespaceToken, " "); (IdentToken, "font-size");
            (ColonToken, ":"); (WhitespaceToken, " "); (IdentToken, "large");
            (SemicolonToken, ";"); (WhitespaceToken, " "); (RightBraceToken, "}")]);
    reflexivity.
Defined.

(** C8, on a [:global] block that lacks its closing brace. *)
Lemma unclosed_global_block_test :
  Process LittleEndian RefLexer.NewLexer ":global {.test-class { color: red; }" =
  Ok " .test-class { color: red; }" ∅.
Proof.
  apply (TransformerFacts.unclosed_global_block LittleEndian RefLexer.NewLexer
           ":global {.test-class { color: red; }" ":" "{"
           [(WhitespaceToken, " ")]
           [(DelimToken, "."); (IdentToken, "test-class"); (WhitespaceToken, " ");
            (LeftBraceToken, "{"); (WhitespaceToken, " "); (IdentToken, "color");
            (ColonToken, ":"); (WhitespaceToken, " "); (IdentToken, "red");
            (SemicolonToken, ";"); (WhitespaceToken, " "); (RightBraceToken, "}")]);
    reflexivity.
Defined.

(** C1 (as stated) fails: in [..a] the second [.] is a delimiter
    immediately followed by an identifier, and no [:global] block is in
    sight, yet [Process] copies the input through and records nothing:
    the second [.] was read ahead after the first. *)
Lemma scoping_incomplete_after_dot :
  toks (RefLexer.NewLexer "..a") =
    [(DelimToken, "."); (DelimToken, "."); (IdentToken, "a")] /\
  Process LittleEndian RefLexer.NewLexer "..a" = Ok "..a" ∅ /\
  ~ scoping_complete LittleEndian RefLexer.NewLexer "..a".
Proof.
  split; [reflexivity|]. split; [reflexivity|].
  intros H. destruct (H "a" true) as (css & classes & E & Hl).
  - vm_compute. left. reflexivity.
  - change (Process LittleEndian RefLexer.NewLexer "..a") with (Ok "..a" ∅) in E.
    injection E as _ <-. rewrite lookup_empty in Hl. discriminate.
Qed.

(** C1, on the payload of the package's test [ValidCSSModules]. *)
Lemma scoping_completeness_test :
  records LittleEndian RefLexer.NewLexer
    ".test-class { color: red; font-size: large; }" "test-class".
Proof.
  apply (TransformerFacts.scoping_completeness LittleEndian RefLexer.NewLexer
           ".test-class { color: red; font-size: large; }" "test-class").
  - reflexivity.
  - vm_compute. left. reflexivity.
Defined.

(** C10, on the input [a:]. *)
Lemma trailing_colon_dropped_test :
  Process LittleEndian RefLexer.NewLexer "a:" = Ok "a" ∅ /\
  exists css classes, Process LittleEndian RefLexer.NewLexer "a:" = Ok css classes.
Proof.
  apply (TransformerFacts.trailing_colon_dropped LittleEndian RefLexer.NewLexer
           "a:" ":" [(IdentToken, "a")]); reflexivity.
Defined.

(** C10 (as stated) fails: the input [::] ends immediately after a
    colon, and that colon is in the output. It was read ahead after the
    first colon and copied with it. *)
Lemma trailing_colon_kept_after_colon :
  toks (RefLexer.NewLexer "::") = ([(ColonToken, ":")] ++ [(ColonToken, ":")])%list /\
  Process LittleEndian RefLexer.NewLexer "::" = Ok "::" ∅ /\
  Process LittleEndian RefLexer.NewLexer "::" <>
    run (genHash LittleEndian "::") {| toks := [(ColonToken, ":")]; lerr := EOF |}.
Proof. repeat split. discriminate. Qed.

(** C5, on a ruleset that defines [a] and [b] but not [c]. *)
Lemma C_missing_class_test :
  let first := Classes LittleEndian RefLexer.NewLexer new_Collector ".a{} .b{}" in
  let mapping := match fst first with
                 | Mapping m => m
                 | LookupError _ => ∅
                 end in
  exists before missing after,
    ["a"; "c"; "b"] = (before ++ missing :: after)%list /\
    Forall (fun n => is_Some (mapping !! n)) before /\
    mapping !! missing = None /\
    C LittleEndian RefLexer.NewLexer Quote_plain new_Collector ".a{} .b{}" ["a"; "c"; "b"] =
      (Panics (PanicString ("no class found " +:+ Quote_plain missing)), snd first) /\
    forall node,
      fst (C LittleEndian RefLexer.NewLexer Quote_plain new_Collector ".a{} .b{}"
             ["a"; "c"; "b"]) <> Returns node.
Proof.
  cbv zeta.
  apply (AggregatorFacts.C_missing_class LittleEndian RefLexer.NewLexer Quote_plain
           new_Collector _ ".a{} .b{}" ["a"; "c"; "b"] _ "c").
  - vm_compute. reflexivity.
  - right. left. reflexivity.
  - vm_compute. reflexivity.
Defined.

(** C6 (as stated) fails: [Render] empties the buffer. After one ruleset
    has been collected, a first [Render] into a sink that keeps its
    bytes emits the collected CSS and a second one emits an empty style
    block; the buffer after the first is not an extension of the buffer
    before it. *)
Lemma second_render_is_empty :
  let c := snd (Classes LittleEndian RefLexer.NewLexer new_Collector ".a{}") in
  let first := Render string MemWrite c EmptyString in
  let second := Render string MemWrite (snd (fst first)) EmptyString in
  styles c = ".a_iAFSAw{}" +:+ newline /\
  snd first = "<style>.a_iAFSAw{}" +:+ newline +:+ "</style>" /\
  snd second = "<style></style>" /\
  snd first <> snd second /\
  styles (snd (fst first)) = EmptyString /\
  ~ exists suffix, styles (snd (fst first)) = styles c +:+ suffix.
Proof.
  cbv zeta. repeat split; try discriminate.
  intros [suffix E]. vm_compute in E. discriminate.
Qed.

(** ** The package's test payloads

    [Process] on the payloads of [TestProcess], little-endian, with the
    reference tokenizer. *)

Module Tests.

Abbreviation Process := (Process LittleEndian RefLexer.NewLexer).

Example ValidCSSModules :
  exists css classes,
    Process ".test-class { color: red; font-size: large; }" = Ok css classes /\
    css = ".test-class_2A9LcA { color: red; font-size: large; }" /\
    classes !! "test-class" = Some "test-class_2A9LcA".
Proof. do 2 eexists. split; [reflexivity|]. split; reflexivity. Qed.

Example MediaQueryScoping :
  exists css classes,
    Process "@media screen and (min-width: 70ch) { .test-class { color: green; } }" =
      Ok css classes /\
    css = "@media screen and (min-width: 70ch) { .test-class_aBfUNg { color: green; } }" /\
    classes !! "test-class" = Some "test-class_aBfUNg".
Proof. do 2 eexists. split; [reflexivity|]. split; reflexivity. Qed.

Example MediaQueryScoping_state :
  state_at_end (toks (RefLexer.NewLexer "@media screen")) = Normal.
Proof. reflexivity. Qed.

Example Comments :
  Process "/* Test Comments */ /* Not Closing Comment" =
  Ok "/* Test Comments */ /* Not Closing Comment" ∅.
Proof. reflexivity. Qed.

Example ID_not_scoped :
  Process "#test-class {color: red; font-size: medium}" =
  Ok "#test-class {color: red; font-size: medium}" ∅.
Proof. reflexivity. Qed.

Example GlobalBlockMalformed :
  Process ":global {.test-class { color: red; font-size: large; }" =
  Ok " .test-class { color: red; font-size: large; }" ∅.
Proof. reflexivity. Qed.

Example NilPayload : Process "" = Ok "" ∅.
Proof. reflexivity. Qed.

Example ClassNameStartsWithSpace :
  Process ". test-class { color:red; font-size: large;}" =
  Ok ". test-class { color:red; font-size: large;}" ∅.
Proof. reflexivity. Qed.

Example ClassNameStartsWithSpace_HasPseudoAndCombinator :
  Process ". test-class :hover { color:green; font-size: medium; }" =
  Ok ". test-class :hover { color:green; font-size: medium; }" ∅.
Proof. reflexivity. Qed.

(** The selectors that the stream reading finds, with their flags. *)
Example selectors_of_a_stream :
  bare_class_selectors false None
    (toks (RefLexer.NewLexer ".a .b:hover{} :.c ..d :global .e { .f } .g")) =
  [("a", false); ("b", false); ("c", true); ("d", true); ("g", false)].
Proof. reflexivity. Qed.

End Tests.

(** * Further properties *)

(** ** The hasher *)

Module HasherMore.

Import HasherFacts.

Lemma byte_val_range x : 0 <= byte_val x < 256.
Proof.
  unfold byte_val. pose proof (N_ascii_bounded x) as H. lia.
Qed.

(** [adler32_write] from any state within range, in closed form. *)
Lemma adler32_write_closed p : forall a b,
  0 <= a < adler_mod -> 0 <= b < adler_mod ->
  adler32_write (a, b) p =
  ((a + byte_sum p) mod adler_mod,
   (b + Z.of_nat (String.length p) * a + weighted_sum p) mod adler_mod).
Proof.
  unfold adler_mod.
  induction p as [|x p IH]; intros a b Ha Hb.
  - cbn [adler32_write byte_sum weighted_sum String.length].
    rewrite !Z.mod_small by lia. f_equal; lia.
  - cbn [adler32_write]. unfold adler32_update, adler_mod. cbn [fst snd].
    rewrite IH by (apply Z.mod_pos_bound; lia).
    cbn [byte_sum weighted_sum]. change (String.length (String x p)) with (S (String.length p)).
    set (n := Z.of_nat (String.length p)).
    replace (Z.of_nat (S (String.length p))) with (n + 1) by (subst n; lia).
    set (v := byte_val x). set (q := (a + v) / 65521).
    assert ((a + v) mod 65521 = a + v - 65521 * q) as Ea
      by (subst q; rewrite Z.mod_eq by lia; reflexivity).
    rewrite Ea.
    set (q' := (b + (a + v - 65521 * q)) / 65521).
    assert ((b + (a + v - 65521 * q)) mod 65521 = b + (a + v - 65521 * q) - 65521 * q') as Eb
      by (subst q'; rewrite Z.mod_eq by lia; reflexivity).
    rewrite Eb.
    f_equal.
    + replace (a + v - 65521 * q + byte_sum p)
        with (a + (v + byte_sum p) + (- q) * 65521) by ring.
      apply Z.mod_add. lia.
    + replace (b + (a + v - 65521 * q) - 65521 * q' + n * (a + v - 65521 * q) + weighted_sum p)
        with (b + (n + 1) * a + ((n + 1) * v + weighted_sum p) +
              (- (q * (n + 1) + q')) * 65521)
        by ring.
      apply Z.mod_add. lia.
Qed.

Lemma adler32_Sum32_value p :
  adler32_Sum32 p =
  ((Z.of_nat (String.length p) + weighted_sum p) mod 65521) * 65536 +
  (1 + byte_sum p) mod 65521.
Proof.
  unfold adler32_Sum32.
  rewrite adler32_write_closed by (unfold adler_mod; lia).
  cbn [fst snd]. unfold adler_mod.
  pose proof (Z.mod_pos_bound (1 + byte_sum p) 65521 ltac:(lia)).
  rewrite lor_shiftl_low by lia.
  change (2 ^ 16) with 65536. f_equal. f_equal. f_equal. lia.
Qed.

Lemma adler32_Sum32_range p : 0 <= adler32_Sum32 p < 2 ^ 32.
Proof.
  rewrite adler32_Sum32_value.
  pose proof (Z.mod_pos_bound (1 + byte_sum p) 65521 ltac:(lia)).
  pose proof (Z.mod_pos_bound (Z.of_nat (String.length p) + weighted_sum p) 65521 ltac:(lia)).
  change (2 ^ 32) with 4294967296. lia.
Qed.

(** X1. The checksum that [genHash] encodes is the Adler-32 value in
    closed form: its low 16 bits are one plus the sum of the input bytes
    modulo 65521, its high 16 bits are the length plus the
    position-weighted sum of the bytes modulo 65521, and it fits in 32
    bits, so the conversion to [uint32] loses nothing. *)
Theorem adler32_closed_form (p : string) :
  adler32_Sum32 p =
    ((Z.of_nat (String.length p) + weighted_sum p) mod 65521) * 65536 +
    (1 + byte_sum p) mod 65521 /\
  adler32_Sum32 p mod 65536 = (1 + byte_sum p) mod 65521 /\
  adler32_Sum32 p / 65536 = (Z.of_nat (String.length p) + weighted_sum p) mod 65521 /\
  0 <= adler32_Sum32 p < 2 ^ 32.
Proof.
  split; [apply adler32_Sum32_value|].
  split; [|split; [|apply adler32_Sum32_range]].
  - rewrite adler32_Sum32_value.
    pose proof (Z.mod_pos_bound (1 + byte_sum p) 65521 ltac:(lia)).
    rewrite Z.add_comm, Z.mod_add by lia. apply Z.mod_small. lia.
  - rewrite adler32_Sum32_value.
    pose proof (Z.mod_pos_bound (1 + byte_sum p) 65521 ltac:(lia)).
    rewrite Z.add_comm, Z.div_add by lia. rewrite Z.div_small by lia. reflexivity.
Qed.

(** The four bytes of a 32-bit value determine it, in either order. *)
Lemma PutUint32_inj o v w :
  0 <= v < 2 ^ 32 -> 0 <= w < 2 ^ 32 -> PutUint32 o v = PutUint32 o w -> v = w.
Proof.
  intros Hv Hw E.
  assert (byte_of v = byte_of w /\ byte_of (Z.shiftr v 8) = byte_of (Z.shiftr w 8) /\
          byte_of (Z.shiftr v 16) = byte_of (Z.shiftr w 16) /\
          byte_of (Z.shiftr v 24) = byte_of (Z.shiftr w 24)) as (E0 & E1 & E2 & E3).
  { destruct o; cbn [PutUint32] in E; injection E; intros; repeat split; assumption. }
  clear E. unfold byte_of in *.
  change 255 with (Z.ones 8) in *.
  rewrite !Z.land_ones in * by lia.
  rewrite !Z.shiftr_div_pow2 in * by lia.
  change (2 ^ 32) with 4294967296 in *. change (2 ^ 8) with 256 in *.
  change (2 ^ 16) with 65536 in *. change (2 ^ 24) with 16777216 in *.
  Z.div_mod_to_equations. lia.
Qed.

(** X2. The fingerprint loses nothing of the checksum: on one machine,
    two inputs have the same fingerprint exactly when they have the same
    Adler-32 checksum. *)
Theorem genHash_same_iff_same_checksum (native : ByteOrder) (p q : string) :
  genHash native p = genHash native q <-> adler32_Sum32 p = adler32_Sum32 q.
Proof.
  split.
  - unfold genHash. intros E.
    apply (PutUint32_inj native); try apply adler32_Sum32_range.
    destruct (PutUint32_bytes native (adler32_Sum32 p))
      as (a0 & a1 & a2 & a3 & Ea & ? & ? & ? & ?).
    destruct (PutUint32_bytes native (adler32_Sum32 q))
      as (b0 & b1 & b2 & b3 & Eb & ? & ? & ? & ?).
    rewrite Ea, Eb in *. now apply EncodeToString_4_inj.
  - unfold genHash. now intros ->.
Qed.

End HasherMore.

(** ** The scope transformer *)

Module TransformerMore.

Import StringFacts TransformerFacts.

(** A loop whose return at the end of the stream is the same everywhere
    returns just that. *)
Lemma loops_constant (hash : string) (R : Type) (atEnd : State -> Buffers -> R) (r : R)
    (n : nat) :
  (forall s b, atEnd s b = r) ->
  forall zz, (length zz <= n)%nat ->
  (forall b, mainLoop hash atEnd zz b = r) /\
  (forall bc b, globalLoop hash atEnd zz bc b = r) /\
  (forall b, mediaLoop hash atEnd zz b = r).
Proof.
  intros Hr.
  induction n as [|n IH]; intros zz Hlen.
  { destruct zz; [|cbn in Hlen; lia]. repeat split; intros; apply Hr. }
  destruct zz as [|[zt data] zz1].
  { repeat split; intros; apply Hr. }
  cbn [length] in Hlen.
  split; [|split].
  - intros b. rewrite mainLoop_cons. cbv zeta.
    repeat (destruct (decide _)).
    all: try (destruct zz1 as [|[zt2 data2] zz2];
              [apply Hr|];
              repeat (destruct (decide _));
              apply (IH zz2); cbn [length] in *; lia).
    apply (IH zz1); lia.
  - intros bc b. rewrite globalLoop_cons.
    repeat (destruct (decide _)); apply (IH zz1); lia.
  - intros b. rewrite mediaLoop_cons. cbv zeta.
    repeat (destruct (decide _)).
    all: try (destruct zz1 as [|[zt2 data2] zz2];
              [apply Hr|];
              repeat (destruct (decide _));
              apply (IH zz2); cbn [length] in *; lia).
    all: apply (IH zz1); lia.
Qed.

Lemma run_fails (hash : string) (zz : Lexer) :
  lerr zz <> EOF -> run hash zz = Fail (lerr zz).
Proof.
  intros Herr. unfold run.
  apply (loops_constant hash result _ (Fail (lerr zz)) (length (toks zz)));
    [|apply Nat.le_refl].
  intros s b. unfold returnAtError. destruct (decide _); [contradiction|reflexivity].
Qed.

Lemma has_selector_cons t zz name : has_selector zz name -> has_selector (t :: zz) name.
Proof. intros (before & after & ->). now exists (t :: before), after. Qed.

Lemma has_selector_head d zz : has_selector ((DelimToken, ".") :: (IdentToken, d) :: zz) d.
Proof. now exists [], zz. Qed.

Section Entries.

Variable hash : string.
Variable err : error.

Let ret : State -> Buffers -> result := fun _ => returnAtError err.

(** An entry of the final mapping was in the mapping at the start or is
    the scoped name of a class selector among the tokens. *)
Let from (m : gmap string string) (zz : list Token) (r : result) : Prop :=
  forall css classes, r = Ok css classes ->
  forall k v, classes !! k = Some v ->
    m !! k = Some v \/ (v = k +:+ "_" +:+ hash /\ has_selector zz k).

Lemma from_at_end m zz s b : scopedClasses b = m -> from m zz (ret s b).
Proof.
  intros <- css classes E k v Hk. left.
  unfold ret, returnAtError in E. destruct (decide _); [|discriminate].
  injection E as _ <-. exact Hk.
Qed.

Lemma from_cons m t zz r : from m zz r -> from m (t :: zz) r.
Proof.
  intros H css classes E k v Hk.
  destruct (H css classes E k v Hk) as [?|[? ?]]; auto using has_selector_cons.
Qed.

Lemma from_selector m d zz r :
  from (<[d := d +:+ "_" +:+ hash]> m) zz r ->
  from m ((DelimToken, ".") :: (IdentToken, d) :: zz) r.
Proof.
  intros H css classes E k v Hk.
  destruct (H css classes E k v Hk) as [Hl|[? ?]].
  - destruct (decide (d = k)) as [->|Hne].
    + rewrite lookup_insert_eq in Hl. injection Hl as <-.
      right. split; [reflexivity | apply has_selector_head].
    + rewrite lookup_insert_ne in Hl by exact Hne. now left.
  - right. split; [assumption|]. now do 2 apply has_selector_cons.
Qed.

Lemma entries_from_selectors (n : nat) : forall zz, (length zz <= n)%nat ->
  (forall b m, scopedClasses b = m -> from m zz (mainLoop hash ret zz b)) /\
  (forall bc b m, scopedClasses b = m -> from m zz (globalLoop hash ret zz bc b)) /\
  (forall b m, scopedClasses b = m -> from m zz (mediaLoop hash ret zz b)).
Proof.
  induction n as [|n IH]; intros zz Hlen.
  { destruct zz; [|cbn in Hlen; lia].
    repeat split; intros;
      rewrite ?mainLoop_nil, ?globalLoop_nil, ?mediaLoop_nil; now apply from_at_end. }
  destruct zz as [|[zt data] zz1].
  { repeat split; intros;
      rewrite ?mainLoop_nil, ?globalLoop_nil, ?mediaLoop_nil; now apply from_at_end. }
  cbn [length] in Hlen.
  split; [|split].
  - intros b m Hm. rewrite mainLoop_cons. cbv zeta.
    destruct (decide (zt = ColonToken)).
    { destruct zz1 as [|[zt2 data2] zz2]; [now apply from_at_end|].
      repeat (destruct (decide _)); do 2 apply from_cons;
        apply (IH zz2); solve [cbn [length] in *; lia | exact Hm]. }
    destruct (decide (zt = AtKeywordToken)).
    { destruct zz1 as [|[zt2 data2] zz2]; [now apply from_at_end|].
      cbv zeta. repeat (destruct (decide _)); do 2 apply from_cons;
        apply (IH zz2); solve [cbn [length] in *; lia | exact Hm]. }
    destruct (decide (zt = DelimToken /\ data = ".")) as [[-> ->]|].
    { destruct zz1 as [|[zt2 data2] zz2]; [now apply from_at_end|].
      destruct (decide (zt2 <> IdentToken)) as [|Hk].
      - do 2 apply from_cons.
        apply (IH zz2); solve [cbn [length] in *; lia | exact Hm].
      - apply dec_stable in Hk. subst zt2. apply from_selector.
        apply (IH zz2); [cbn [length] in *; lia|]. subst m. reflexivity. }
    apply from_cons. apply (IH zz1); solve [lia | exact Hm].
  - intros bc b m Hm. rewrite globalLoop_cons.
    repeat (destruct (decide _)); apply from_cons;
      apply (IH zz1); solve [lia | exact Hm].
  - intros b m Hm. rewrite mediaLoop_cons. cbv zeta.
    destruct (decide (zt = DelimToken /\ data = ".")) as [[-> ->]|].
    { destruct zz1 as [|[zt2 data2] zz2]; [now apply from_at_end|].
      destruct (decide (zt2 <> IdentToken)) as [|Hk].
      - do 2 apply from_cons.
        apply (IH zz2); solve [cbn [length] in *; lia | exact Hm].
      - apply dec_stable in Hk. subst zt2. apply from_selector.
        apply (IH zz2); [cbn [length] in *; lia|]. subst m. reflexivity. }
    repeat (destruct (decide _)); apply from_cons;
      apply (IH zz1); solve [lia | exact Hm].
Qed.

End Entries.

Section Passing.

Variable hash : string.
Variable R : Type.
Variable atEnd : State -> Buffers -> R.

(** Tokens after which nothing is read ahead are copied one by one. *)
Lemma mainLoop_copies zz : forall o m,
  forallb (fun t => negb (reads_ahead t)) zz = true ->
  mainLoop hash atEnd zz {| out := o; tmp := EmptyString; scopedClasses := m |} =
  atEnd Normal {| out := o +:+ payload zz; tmp := EmptyString; scopedClasses := m |}.
Proof.
  induction zz as [|[zt data] zz IH]; intros o m Hzz.
  - cbn [payload]. now rewrite app_nil_r.
  - cbn [forallb] in Hzz. apply andb_true_iff in Hzz as [Ht Hzz].
    apply negb_true_iff in Ht. unfold reads_ahead, is_dot in Ht. cbn [fst snd] in Ht.
    apply orb_false_iff in Ht as [Ht Hdot]. apply orb_false_iff in Ht as [Hcolon Hat].
    apply bool_decide_eq_false in Hcolon, Hat, Hdot.
    rewrite mainLoop_cons. cbv zeta.
    destruct (decide (zt = ColonToken)); [contradiction|].
    destruct (decide (zt = AtKeywordToken)); [contradiction|].
    destruct (decide (zt = DelimToken /\ data = ".")); [contradiction|].
    transitivity (mainLoop hash atEnd zz
                    {| out := o +:+ data; tmp := EmptyString; scopedClasses := m |});
      [reflexivity|].
    rewrite IH by exact Hzz. cbn [payload snd]. now rewrite app_assoc.
Qed.

End Passing.

Section MediaAsMain.

Variable hash : string.
Variable err : error.

Let ret : State -> Buffers -> result := fun _ => returnAtError err.

(** On tokens without colons and at-keywords, the media loop does what
    the main loop does. *)
Lemma mediaLoop_as_mainLoop (n : nat) : forall zz o m,
  (length zz <= n)%nat ->
  forallb (fun t => negb (bool_decide (fst t = ColonToken)) &&
                    negb (bool_decide (fst t = AtKeywordToken))) zz = true ->
  mediaLoop hash ret zz {| out := o; tmp := EmptyString; scopedClasses := m |} =
  mainLoop hash ret zz {| out := o; tmp := EmptyString; scopedClasses := m |}.
Proof.
  induction n as [|n IH]; intros zz o m Hlen Hzz.
  { destruct zz; [reflexivity | cbn in Hlen; lia]. }
  destruct zz as [|[zt data] zz1]; [reflexivity|].
  cbn [length] in Hlen. cbn [forallb fst] in Hzz.
  apply andb_true_iff in Hzz as [Ht Hzz1].
  apply andb_true_iff in Ht as [Hcolon Hat].
  apply negb_true_iff, bool_decide_eq_false in Hcolon, Hat.
  rewrite mediaLoop_cons, mainLoop_cons. cbv zeta.
  destruct (decide (zt = ColonToken)); [contradiction|].
  destruct (decide (zt = AtKeywordToken)); [contradiction|].
  destruct (decide (zt = DelimToken /\ data = ".")) as [[-> ->]|].
  - destruct zz1 as [|[zt2 data2] zz2]; [reflexivity|].
    cbn [forallb] in Hzz1. apply andb_true_iff in Hzz1 as [_ Hzz2].
    destruct (decide (zt2 <> IdentToken)).
    + exact (IH zz2 ((o +:+ ".") +:+ data2) m ltac:(cbn [length] in *; lia) Hzz2).
    + exact (IH zz2 ((o +:+ ".") +:+ (data2 +:+ "_" +:+ hash))
               (<[data2 := data2 +:+ "_" +:+ hash]> m)
               ltac:(cbn [length] in *; lia) Hzz2).
  - destruct (decide (zt = LeftBraceToken)).
    + exact (IH zz1 (o +:+ data) m ltac:(lia) Hzz1).
    + destruct (decide (zt = RightBraceToken)); [reflexivity|].
      exact (IH zz1 (o +:+ data) m ltac:(lia) Hzz1).
Qed.

End MediaAsMain.

Section ProcessFacts.

Variable NativeEndian : ByteOrder.
Variable NewLexer : string -> Lexer.

Abbreviation Process := (Process NativeEndian NewLexer).

(** X3. [Process] fails only for want of a clean end of the token
    stream: it returns an error exactly when the lexer's error at the
    end of the tokens is not [io.EOF], and the error is that one;
    nothing in the stylesheet text makes it fail. *)
Theorem Process_error_is_lexer_error (styles : string) :
  match Process styles with
  | Ok _ _ => lerr (NewLexer styles) = EOF
  | Fail err => err = lerr (NewLexer styles) /\ err <> EOF
  end.
Proof.
  unfold Transformer.Process. cbv zeta.
  destruct (decide (lerr (NewLexer styles) = EOF)) as [Heof|Herr].
  - destruct (run_succeeds (genHash NativeEndian styles) (NewLexer styles) Heof)
      as (css & classes & ->). exact Heof.
  - rewrite run_fails by exact Herr. split; [reflexivity | exact Herr].
Qed.

(** X4. Every entry of the mapping that [Process] returns is a class
    selector of the input with its scoped name: the key is an
    identifier that immediately follows a [.] delimiter among the
    tokens, and the value is the key, an underscore and the fingerprint
    of the input. Nothing else is ever a key. *)
Theorem mapping_entries_are_scoped_selectors (styles css : string)
    (classes : gmap string string) (k v : string) :
  Process styles = Ok css classes ->
  classes !! k = Some v ->
  v = k +:+ "_" +:+ genHash NativeEndian styles /\
  has_selector (toks (NewLexer styles)) k.
Proof.
  intros E Hk.
  destruct (entries_from_selectors (genHash NativeEndian styles) (lerr (NewLexer styles))
              (length (toks (NewLexer styles))) (toks (NewLexer styles))
              (Nat.le_refl _)) as (Hmain & _).
  destruct (Hmain empty_buffers _ eq_refl css classes E k v Hk) as [Hempty|H]; [|exact H].
  unfold empty_buffers in Hempty. cbn [scopedClasses] in Hempty.
  rewrite lookup_empty in Hempty. discriminate.
Qed.

(** X5. A stylesheet whose tokens include no colon, no at-keyword and no
    [.] delimiter comes out as it went in: the output is the bytes of
    its tokens in order and the mapping is empty. *)
Theorem plain_tokens_pass_through (styles : string) :
  lerr (NewLexer styles) = EOF ->
  forallb (fun t => negb (reads_ahead t)) (toks (NewLexer styles)) = true ->
  Process styles = Ok (payload (toks (NewLexer styles))) ∅.
Proof.
  intros Herr Hplain. unfold Transformer.Process, run. cbv zeta.
  unfold empty_buffers. rewrite mainLoop_copies by exact Hplain.
  rewrite Herr. reflexivity.
Qed.

End ProcessFacts.

(** X6. On a run of tokens without colons and at-keywords, the media
    loop and the main loop return the same output and the same mapping:
    inside an [@media] block class selectors are scoped as they are at
    the top level. *)
Theorem media_loop_scopes_as_main_loop (hash : string) (err : error) (zz : list Token)
    (o : string) (m : gmap string string) :
  forallb (fun t => negb (bool_decide (fst t = ColonToken)) &&
                    negb (bool_decide (fst t = AtKeywordToken))) zz = true ->
  mediaLoop hash (fun _ => returnAtError err) zz
    {| out := o; tmp := EmptyString; scopedClasses := m |} =
  mainLoop hash (fun _ => returnAtError err) zz
    {| out := o; tmp := EmptyString; scopedClasses := m |}.
Proof.
  intros Hzz. now apply (mediaLoop_as_mainLoop hash err (length zz)).
Qed.

End TransformerMore.

(** ** Composition of runs *)

Module TransformerCompose.

Import StringFacts TransformerFacts TransformerMore.

Section Splitting.

Variable hash : string.

Let stop : State -> Buffers -> State := fun s _ => s.
Let keep : State -> Buffers -> Buffers := fun _ b => b.

(** When the tokens [pre] leave a loop in state [Normal], the loop on
    [pre ++ post] is the main loop on [post] from the buffers that [pre]
    left. *)
Lemma split_at_Normal (n : nat) : forall pre, (length pre <= n)%nat ->
  (forall h' b b' (R : Type) (K : State -> Buffers -> R) post,
     mainLoop h' stop pre b' = Normal ->
     mainLoop hash K (pre ++ post) b = mainLoop hash K post (mainLoop hash keep pre b)) /\
  (forall h' bc b b' (R : Type) (K : State -> Buffers -> R) post,
     globalLoop h' stop pre bc b' = Normal ->
     globalLoop hash K (pre ++ post) bc b =
     mainLoop hash K post (globalLoop hash keep pre bc b)) /\
  (forall h' b b' (R : Type) (K : State -> Buffers -> R) post,
     mediaLoop h' stop pre b' = Normal ->
     mediaLoop hash K (pre ++ post) b = mainLoop hash K post (mediaLoop hash keep pre b)).
Proof.
  induction n as [|n IH]; intros pre Hlen.
  { destruct pre; [|cbn in Hlen; lia].
    repeat split; intros; first [discriminate | reflexivity]. }
  destruct pre as [|[zt data] zz1].
  { repeat split; intros; first [discriminate | reflexivity]. }
  cbn [length] in Hlen.
  split; [|split].
  - intros h' b b' R K post. cbn [app]. rewrite !mainLoop_cons. cbv zeta.
    repeat (destruct (decide _)).
    all: try (destruct zz1 as [|[zt2 data2] zz2]; cbn [app]; [discriminate|];
              repeat (destruct (decide _));
              apply (IH zz2); cbn [length] in *; lia).
    apply (IH zz1); lia.
  - intros h' bc b b' R K post. cbn [app]. rewrite !globalLoop_cons.
    repeat (destruct (decide _)); apply (IH zz1); lia.
  - intros h' b b' R K post. cbn [app]. rewrite !mediaLoop_cons. cbv zeta.
    repeat (destruct (decide _)).
    all: try (destruct zz1 as [|[zt2 data2] zz2]; cbn [app]; [discriminate|];
              repeat (destruct (decide _));
              apply (IH zz2); cbn [length] in *; lia).
    all: apply (IH zz1); lia.
Qed.

(** In state [Normal] the look-ahead buffer is empty. *)
Lemma tmp_empty_at_Normal (n : nat) : forall pre, (length pre <= n)%nat ->
  (forall h' b b',
     mainLoop h' stop pre b' = Normal -> tmp b = EmptyString ->
     tmp (mainLoop hash keep pre b) = EmptyString) /\
  (forall h' bc b b',
     globalLoop h' stop pre bc b' = Normal ->
     tmp (globalLoop hash keep pre bc b) = EmptyString) /\
  (forall h' b b',
     mediaLoop h' stop pre b' = Normal ->
     tmp (mediaLoop hash keep pre b) = EmptyString).
Proof.
  induction n as [|n IH]; intros pre Hlen.
  { destruct pre; [|cbn in Hlen; lia].
    repeat split; intros; first [discriminate | assumption]. }
  destruct pre as [|[zt data] zz1].
  { repeat split; intros; first [discriminate | assumption]. }
  cbn [length] in Hlen.
  split; [|split].
  - intros h' b b'. rewrite !mainLoop_cons. cbv zeta. intros Hst _. revert Hst.
    repeat (destruct (decide _)).
    all: try (destruct zz1 as [|[zt2 data2] zz2]; [discriminate|];
              repeat (destruct (decide _)); intros Hst;
              first [ eapply (proj1 (IH zz2 ltac:(cbn [length] in *; lia)));
                      [exact Hst | reflexivity]
                    | eapply (IH zz2); [cbn [length] in *; lia | exact Hst] ]).
    intros Hst. eapply (proj1 (IH zz1 ltac:(lia))); [exact Hst | reflexivity].
  - intros h' bc b b'. rewrite !globalLoop_cons.
    repeat (destruct (decide _)); intros Hst;
      first [ eapply (proj1 (IH zz1 ltac:(lia))); [exact Hst | reflexivity]
            | eapply (IH zz1); [lia | exact Hst] ].
  - intros h' b b'. rewrite !mediaLoop_cons. cbv zeta.
    repeat (destruct (decide _)).
    all: try (destruct zz1 as [|[zt2 data2] zz2]; [discriminate|];
              repeat (destruct (decide _)); intros Hst;
              eapply (proj2 (proj2 (IH zz2 ltac:(cbn [length] in *; lia))));
              exact Hst).
    all: intros Hst;
      first [ eapply (proj1 (IH zz1 ltac:(lia))); [exact Hst | reflexivity]
            | eapply (proj2 (proj2 (IH zz1 ltac:(lia)))); exact Hst ].
Qed.

End Splitting.

Section Framing.

Variable hash : string.
Variable err : error.
Variable o : string.
Variable m0 : gmap string string.

Let ret : State -> Buffers -> result := fun _ => returnAtError err.

Lemma after_run_tmp_Write d b : tmp_Write d (after_run o m0 b) = after_run o m0 (tmp_Write d b).
Proof. reflexivity. Qed.

Lemma after_run_tmp_Reset b : tmp_Reset (after_run o m0 b) = after_run o m0 (tmp_Reset b).
Proof. reflexivity. Qed.

Lemma after_run_out_Write d b : out_Write d (after_run o m0 b) = after_run o m0 (out_Write d b).
Proof. unfold out_Write, after_run. cbn. now rewrite app_assoc. Qed.

Lemma after_run_tmp_WriteTo_out b :
  tmp_WriteTo_out (after_run o m0 b) = after_run o m0 (tmp_WriteTo_out b).
Proof. unfold tmp_WriteTo_out, after_run. cbn. now rewrite app_assoc. Qed.

Lemma after_run_addScopedName d b :
  addScopedName hash d (after_run o m0 b) = after_run o m0 (addScopedName hash d b).
Proof.
  unfold addScopedName, after_run. cbn. rewrite app_assoc. f_equal.
  apply insert_union_l.
Qed.

Lemma after_run_at_end s b : ret s (after_run o m0 b) = result_after o m0 (ret s b).
Proof. unfold ret, returnAtError. destruct (decide _); reflexivity. Qed.

(** A run that starts after an earlier output and mapping returns its
    own result after them. *)
Lemma loops_after_run (n : nat) : forall zz, (length zz <= n)%nat ->
  (forall b, mainLoop hash ret zz (after_run o m0 b) =
             result_after o m0 (mainLoop hash ret zz b)) /\
  (forall bc b, globalLoop hash ret zz bc (after_run o m0 b) =
                result_after o m0 (globalLoop hash ret zz bc b)) /\
  (forall b, mediaLoop hash ret zz (after_run o m0 b) =
             result_after o m0 (mediaLoop hash ret zz b)).
Proof.
  induction n as [|n IH]; intros zz Hlen.
  { destruct zz; [|cbn in Hlen; lia].
    repeat split; intros;
      rewrite ?mainLoop_nil, ?globalLoop_nil, ?mediaLoop_nil; apply after_run_at_end. }
  destruct zz as [|[zt data] zz1].
  { repeat split; intros;
      rewrite ?mainLoop_nil, ?globalLoop_nil, ?mediaLoop_nil; apply after_run_at_end. }
  cbn [length] in Hlen.
  split; [|split].
  - intros b. rewrite !mainLoop_cons. cbv zeta.
    repeat (destruct (decide _)).
    all: try (destruct zz1 as [|[zt2 data2] zz2];
              [rewrite ?after_run_tmp_Write, ?after_run_tmp_WriteTo_out;
               apply after_run_at_end|];
              repeat (destruct (decide _));
              rewrite ?after_run_tmp_Write, ?after_run_tmp_WriteTo_out,
                ?after_run_out_Write, ?after_run_addScopedName, ?after_run_tmp_Reset;
              apply (IH zz2); cbn [length] in *; lia).
    rewrite ?after_run_tmp_Write, ?after_run_tmp_WriteTo_out, ?after_run_tmp_Reset.
    apply (IH zz1); lia.
  - intros bc b. rewrite !globalLoop_cons.
    repeat (destruct (decide _));
      rewrite ?after_run_out_Write, ?after_run_tmp_Reset; apply (IH zz1); lia.
  - intros b. rewrite !mediaLoop_cons. cbv zeta.
    repeat (destruct (decide _)).
    all: try (destruct zz1 as [|[zt2 data2] zz2];
              [rewrite ?after_run_out_Write; apply after_run_at_end|];
              repeat (destruct (decide _));
              rewrite ?after_run_out_Write, ?after_run_addScopedName;
              apply (IH zz2); cbn [length] in *; lia).
    all: rewrite ?after_run_out_Write, ?after_run_tmp_Reset; apply (IH zz1); lia.
Qed.

End Framing.

(** A run splits at a point where the main loop is in state [Normal]. *)
Lemma runs_in_sequence (hash : string) (err : error) (pre post : list Token) :
  state_at_end pre = Normal ->
  run hash {| toks := pre ++ post; lerr := err |} =
  sequence (run hash {| toks := pre; lerr := err |})
           (run hash {| toks := post; lerr := err |}).
Proof.
  intros Hst.
  destruct (decide (err = EOF)) as [->|Hne].
  2: { rewrite !run_fails by exact Hne. reflexivity. }
  unfold run. cbn [toks lerr].
  destruct (split_at_Normal hash (length pre) pre (Nat.le_refl _)) as (Hsplit & _).
  destruct (tmp_empty_at_Normal hash (length pre) pre (Nat.le_refl _)) as (Htmp & _).
  specialize (Htmp _ empty_buffers _ Hst eq_refl).
  rewrite (Hsplit _ empty_buffers _ _ (fun _ => returnAtError EOF) post Hst).
  pose proof (Hsplit _ empty_buffers _ _ (fun _ => returnAtError EOF) [] Hst) as Hpre.
  rewrite List.app_nil_r in Hpre. rewrite Hpre. rewrite mainLoop_nil.
  set (B := mainLoop hash (fun _ b => b) pre empty_buffers) in *.
  assert (B = after_run (out B) (scopedClasses B) empty_buffers) as ->.
  { destruct B as [o t m]. cbn in Htmp. subst t. unfold after_run, empty_buffers. cbn.
    rewrite StringFacts.app_nil_r. f_equal. symmetry. apply (left_id_L ∅ (∪)). }
  destruct (loops_after_run hash EOF (out B) (scopedClasses B) (length post) post
              (Nat.le_refl _)) as (Hframe & _).
  rewrite Hframe.
  change (returnAtError EOF (after_run (out B) (scopedClasses B) empty_buffers))
    with (Ok (out B +:+ EmptyString) (∅ ∪ scopedClasses B)).
  rewrite StringFacts.app_nil_r, (left_id_L ∅ (∪)).
  destruct (mainLoop hash (fun _ => returnAtError EOF) post empty_buffers); reflexivity.
Qed.

(** X7. Runs compose at a point where the main loop is in state
    [Normal]: when the tokens [pre] leave no block open and no
    read-ahead pending, the run on [pre] followed by [post] returns the
    output of [pre] followed by the output of [post], and the mapping of
    both; with a lexer error other than [io.EOF] all three runs fail
    with it. *)
Theorem run_composes (hash : string) (err : error) (pre post : list Token) :
  state_at_end pre = Normal ->
  run hash {| toks := pre ++ post; lerr := err |} =
  sequence (run hash {| toks := pre; lerr := err |})
           (run hash {| toks := post; lerr := err |}).
Proof. apply runs_in_sequence. Qed.

(** X17. The last token of a stream, read in state [Normal], is copied
    to the end of the output unless it is a colon: a trailing [.], a
    trailing at-keyword and any other trailing token are flushed at the
    end of the stream, a trailing colon alone is dropped. The mapping is
    that of the tokens before. *)
Theorem last_token_is_flushed_unless_colon (hash : string) (pre : list Token)
    (zt : TokenType) (data : string) :
  state_at_end pre = Normal ->
  run hash {| toks := pre ++ [(zt, data)]; lerr := EOF |} =
  sequence (run hash {| toks := pre; lerr := EOF |})
           (Ok (if decide (zt = ColonToken) then EmptyString else data) ∅).
Proof.
  intros Hst. rewrite (runs_in_sequence hash EOF pre [(zt, data)] Hst).
  f_equal. unfold run. cbn [toks lerr]. rewrite mainLoop_cons. cbv zeta.
  repeat (destruct (decide _)); reflexivity.
Qed.

(** X18. A class selector read in state [Normal] is rewritten in place:
    the output is the output of the tokens before it, then the [.], the
    identifier, an underscore and the fingerprint, then the output of
    the tokens after it; the mapping gains the identifier with its
    scoped name. *)
Theorem class_selector_is_rewritten_in_place (hash name : string)
    (pre post : list Token) :
  state_at_end pre = Normal ->
  run hash {| toks := pre ++ (DelimToken, ".") :: (IdentToken, name) :: post;
              lerr := EOF |} =
  sequence (run hash {| toks := pre; lerr := EOF |})
    (sequence (Ok ("." +:+ name +:+ "_" +:+ hash) (<[name := name +:+ "_" +:+ hash]> ∅))
              (run hash {| toks := post; lerr := EOF |})).
Proof.
  intros Hst.
  rewrite (runs_in_sequence hash EOF pre
             ((DelimToken, ".") :: (IdentToken, name) :: post) Hst).
  f_equal.
  exact (runs_in_sequence hash EOF [(DelimToken, "."); (IdentToken, name)] post eq_refl).
Qed.

(** X8. What follows a closed [:global] block is processed as if it
    stood alone: the run returns the bytes of the block without the
    marker and the wrapping braces, then the output of the rest, and the
    mapping is that of the rest. *)
Theorem global_block_then_rest (hash colon lbrace rbrace : string) (err : error)
    (pre inner rest : list Token) :
  forallb (fun t => negb (is_brace t)) pre = true ->
  balanced_from 0 inner = true ->
  run hash {| toks := (ColonToken, colon) :: (IdentToken, "global") ::
                      pre ++ (LeftBraceToken, lbrace) :: inner ++
                      (RightBraceToken, rbrace) :: rest;
              lerr := err |} =
  match run hash {| toks := rest; lerr := err |} with
  | Ok css classes => Ok ((payload pre +:+ payload inner) +:+ css) classes
  | Fail e => Fail e
  end.
Proof.
  intros Hpre Hinner. unfold run. cbn [toks lerr].
  rewrite mainLoop_cons. cbv zeta.
  destruct (decide (ColonToken = ColonToken)); [|contradiction].
  destruct (decide (IdentToken <> IdentToken)); [contradiction|].
  destruct (decide ("global" <> "global")); [contradiction|].
  rewrite globalLoop_copies by exact Hpre.
  rewrite globalLoop_cons.
  destruct (decide (LeftBraceToken = LeftBraceToken)); [|contradiction].
  destruct (decide (0 <> 0)); [contradiction|].
  change (0 + 1) with (Z.of_nat 0 + 1).
  rewrite globalLoop_balanced by exact Hinner.
  destruct (loops_after_run hash err (payload pre +:+ payload inner) ∅ (length rest) rest
              (Nat.le_refl _)) as (Hframe & _).
  specialize (Hframe empty_buffers).
  replace (after_run (payload pre +:+ payload inner) ∅ empty_buffers)
    with (tmp_Reset (out_Write (payload inner)
            (out_Write (payload pre) (tmp_Write colon empty_buffers)))) in Hframe.
  2: { unfold after_run, empty_buffers, tmp_Reset, out_Write, tmp_Write. cbn.
       rewrite StringFacts.app_nil_r, (left_id_L ∅ (∪)). reflexivity. }
  rewrite Hframe.
  destruct (mainLoop hash (fun _ => returnAtError err) rest empty_buffers);
    [|reflexivity].
  cbn. f_equal. apply (right_id_L ∅ (∪)).
Qed.

End TransformerCompose.

(** ** The collector *)

Module AggregatorMore.

Import StringFacts TransformerFacts TransformerMore.

Section Collecting.

Variable NativeEndian : ByteOrder.
Variable NewLexer : string -> Lexer.

Abbreviation Process := (Process NativeEndian NewLexer).
Abbreviation Classes := (Classes NativeEndian NewLexer).
Abbreviation collect := (collect NativeEndian NewLexer).
Abbreviation emitted := (emitted NativeEndian NewLexer).

(** The cached mapping of a ruleset text, if any. *)
Let cached (c : Collector) (ruleset : string) : option (gmap string string) :=
  rules c ≫= (fun r => r !! ruleset).

(** The mapping that [Process] returns for a text, if it succeeds. *)
Let processed (ruleset : string) : option (gmap string string) :=
  match Process ruleset with
  | Ok _ m => Some m
  | Fail _ => None
  end.

(** The cache after a call of [Classes]. *)
Lemma Classes_cache (c : Collector) (ruleset other : string) :
  cached (snd (Classes c ruleset)) other =
  if decide (other = ruleset) then
    match cached c ruleset with
    | Some m => Some m
    | None => processed ruleset
    end
  else cached c other.
Proof.
  unfold cached, processed, Aggregator.Classes.
  destruct (rules c ≫= (fun r => r !! ruleset)) as [m|] eqn:Hc; cbn [snd].
  - destruct (decide (other = ruleset)) as [->|]; [exact Hc | reflexivity].
  - destruct (Transformer.Process _ _ _) as [css m|e]; cbn [snd rules].
    + cbn. destruct (decide (other = ruleset)) as [->|Hne].
      * apply lookup_insert_eq.
      * rewrite lookup_insert_ne by congruence.
        destruct (rules c); [reflexivity | apply lookup_empty].
    + destruct (decide (other = ruleset)) as [->|]; [exact Hc | reflexivity].
Qed.

Lemma collect_snoc (texts : list string) (ruleset : string) :
  collect (texts ++ [ruleset]) = snd (Classes (collect texts) ruleset).
Proof. unfold Derived.collect. now rewrite fold_left_app. Qed.

(** The cache after a sequence of calls holds the texts seen on which
    [Process] succeeds, each with the mapping of [Process]. *)
Lemma cached_collect (texts : list string) : forall ruleset,
  cached (collect texts) ruleset =
  if decide (ruleset ∈ texts) then processed ruleset else None.
Proof.
  induction texts as [|x texts IH] using rev_ind; intros ruleset.
  - destruct (decide (ruleset ∈ [])) as [Hin|]; [|reflexivity].
    now apply elem_of_nil in Hin.
  - rewrite collect_snoc, Classes_cache.
    destruct (decide (ruleset = x)) as [->|Hne].
    + rewrite IH.
      destruct (decide (x ∈ (texts ++ [x])%list)) as [_|Hn];
        [|exfalso; apply Hn; apply elem_of_app; right; now apply list_elem_of_singleton].
      destruct (decide (x ∈ texts)); [|reflexivity].
      destruct (processed x); reflexivity.
    + rewrite IH.
      destruct (decide (ruleset ∈ texts)) as [Hin|Hnin];
        destruct (decide (ruleset ∈ (texts ++ [x])%list)) as [Hin'|Hnin']; try reflexivity.
      * exfalso. apply Hnin'. apply elem_of_app. now left.
      * exfalso. apply elem_of_app in Hin' as [?|Hx]; [contradiction|].
        apply list_elem_of_singleton in Hx. contradiction.
Qed.

(** What [Classes] returns on a collector built by earlier calls. *)
Lemma Classes_collect_fst (texts : list string) (ruleset : string) :
  fst (Classes (collect texts) ruleset) =
  match Process ruleset with
  | Ok _ m => Mapping m
  | Fail err => LookupError err
  end.
Proof.
  pose proof (cached_collect texts ruleset) as Hc. unfold cached, processed in Hc.
  unfold Aggregator.Classes.
  destruct (rules (collect texts) ≫= (fun r => r !! ruleset)) as [m|].
  - destruct (decide (ruleset ∈ texts)); [|discriminate].
    destruct (Transformer.Process _ _ _); [|discriminate].
    injection Hc as ->. reflexivity.
  - destruct (Transformer.Process _ _ _); reflexivity.
Qed.

(** X9. However many rulesets a collector has seen, [Classes] returns
    for a text exactly what [Process] returns for it: the mapping of
    [Process] when it succeeds and its error when it fails. The cache
    never serves the mapping of another text or a stale one. *)
Theorem Classes_returns_what_Process_returns (texts : list string) (ruleset : string) :
  fst (Classes (collect texts) ruleset) =
  match Process ruleset with
  | Ok _ m => Mapping m
  | Fail err => LookupError err
  end.
Proof. apply Classes_collect_fst. Qed.

(** X10. The buffer of a collector that has not been rendered holds,
    in the order of first use, the rewritten output of each distinct
    ruleset text followed by a newline: it starts empty, and a further
    call of [Classes] appends the output of its text and a newline when
    the text was not seen before and [Process] succeeds on it, and
    nothing otherwise. *)
Theorem collected_styles (texts : list string) (ruleset : string) :
  styles (collect []) = EmptyString /\
  styles (collect (texts ++ [ruleset])) =
  styles (collect texts) +:+
  (if decide (ruleset ∈ texts) then EmptyString else emitted ruleset).
Proof.
  split; [reflexivity|].
  rewrite collect_snoc.
  pose proof (cached_collect texts ruleset) as Hc. unfold cached, processed in Hc.
  unfold Aggregator.Classes, Derived.emitted.
  destruct (rules (collect texts) ≫= (fun r => r !! ruleset)) as [m|]; cbn [snd].
  - destruct (decide (ruleset ∈ texts)); [|discriminate].
    now rewrite app_nil_r.
  - destruct (Transformer.Process _ _ _) as [css m|e]; cbn [snd styles].
    + destruct (decide (ruleset ∈ texts)); [discriminate|]. apply app_assoc.
    + destruct (decide (ruleset ∈ texts)); now rewrite app_nil_r.
Qed.

End Collecting.

Section Attributes.

Variable NativeEndian : ByteOrder.
Variable NewLexer : string -> Lexer.
Variable Quote : string -> string.

Abbreviation Process := (Process NativeEndian NewLexer).
Abbreviation Classes := (Classes NativeEndian NewLexer).
Abbreviation collect := (collect NativeEndian NewLexer).
Abbreviation C := (C NativeEndian NewLexer Quote).
Abbreviation R := (R NativeEndian NewLexer Quote).

(** The loop of [C] past its first iteration, when every name is in the
    mapping. *)
Lemma C_loop_joins (mapping : gmap string string) (className : list string) :
  forall i sb v,
    Forall (fun n => is_Some (mapping !! n)) className ->
    C_loop Quote mapping (S i) className (sb +:+ v) =
    Returns (sb +:+ join_space (v :: map (fun n => default EmptyString (mapping !! n)) className)).
Proof.
  induction className as [|n className IH]; intros i sb v Hall.
  - reflexivity.
  - inversion Hall as [|? ? [mapped Hn] Hrest]; subst.
    cbn [C_loop map]. rewrite Hn. cbn [default].
    destruct (decide (S i <> 0%nat)); [|lia].
    replace ((sb +:+ v) +:+ " ") with (sb +:+ (v +:+ " ")) by (now rewrite app_assoc).
    rewrite (IH (S i) (sb +:+ (v +:+ " ")) mapped Hrest).
    f_equal. rewrite app_assoc. f_equal.
    change (join_space (v :: mapped :: ?l)) with (v +:+ " " +:+ join_space (mapped :: l)).
    now rewrite app_assoc.
Qed.

(** [C] when every requested name is in the mapping. *)
Lemma C_joins (c c' : Collector) (ruleset : string) (className : list string)
    (mapping : gmap string string) :
  Classes c ruleset = (Mapping mapping, c') ->
  Forall (fun n => is_Some (mapping !! n)) className ->
  C c ruleset className =
  (Returns (Class (join_space (map (fun n => default EmptyString (mapping !! n)) className))),
   c').
Proof.
  intros Hcl Hall. unfold Aggregator.C. rewrite Hcl.
  destruct className as [|n0 [|n1 rest]].
  - reflexivity.
  - inversion Hall as [|? ? [mapped Hn] _]; subst. cbn [map join_space].
    rewrite Hn. reflexivity.
  - inversion Hall as [|? ? [mapped Hn] Hrest]; subst.
    change (C_loop Quote mapping 0 (n0 :: n1 :: rest) EmptyString)
      with (match mapping !! n0 with
            | Some v => C_loop Quote mapping 1 (n1 :: rest) (EmptyString +:+ v)
            | None => Panics (PanicString (no_class_found Quote n0))
            end).
    rewrite Hn.
    rewrite (C_loop_joins mapping (n1 :: rest) 0%nat EmptyString mapped Hrest).
    cbn [map]. rewrite Hn. reflexivity.
Qed.

(** X11. When every requested class name is in the mapping of the
    ruleset, [C] returns the class attribute whose value is the scoped
    names in the order requested, with one space between neighbours: the
    empty value for no name, and no space before or after. *)
Theorem C_returns_scoped_names_in_order (c c' : Collector) (ruleset : string)
    (className : list string) (mapping : gmap string string) :
  Classes c ruleset = (Mapping mapping, c') ->
  Forall (fun n => is_Some (mapping !! n)) className ->
  C c ruleset className =
  (Returns (Class (join_space (map (fun n => default EmptyString (mapping !! n)) className))),
   c').
Proof. apply C_joins. Qed.

(** The selectors of a ruleset are in the mapping of [Process]. *)
Lemma selectors_in_mapping (ruleset css : string) (classes : gmap string string)
    (name : string) :
  Process ruleset = Ok css classes ->
  In (name, false) (bare_class_selectors false None (toks (NewLexer ruleset))) ->
  classes !! name = Some (name +:+ "_" +:+ genHash NativeEndian ruleset).
Proof.
  intros E Hin.
  assert (lerr (NewLexer ruleset) = EOF) as Herr.
  { destruct (decide (lerr (NewLexer ruleset) = EOF)) as [|Hne]; [assumption|].
    unfold Transformer.Process in E. cbv zeta in E.
    rewrite run_fails in E by exact Hne. discriminate. }
  unfold Transformer.Process, run in E. cbv zeta in E. rewrite Herr in E.
  destruct (pending_is_recorded (genHash NativeEndian ruleset)
              (length (toks (NewLexer ruleset))) (toks (NewLexer ruleset))
              (Nat.le_refl _)) as (Hmain & _).
  destruct (Hmain empty_buffers name) as (css' & classes' & E' & Hk).
  { right. exists false, None. split; [exact I | exact Hin]. }
  rewrite E in E'. injection E' as _ <-. exact Hk.
Qed.

(** [C] on names that are selectors of the ruleset, from a collector
    built by earlier calls of [Classes]. *)
Lemma C_on_selectors (texts : list string) (ruleset : string) (className : list string) :
  lerr (NewLexer ruleset) = EOF ->
  Forall (fun n => In (n, false)
                     (bare_class_selectors false None (toks (NewLexer ruleset))))
    className ->
  fst (C (collect texts) ruleset className) =
  Returns (Class (join_space
                    (map (fun n => n +:+ "_" +:+ genHash NativeEndian ruleset) className))).
Proof.
  intros Herr Hsel.
  destruct (run_succeeds (genHash NativeEndian ruleset) (NewLexer ruleset) Herr)
    as (css & classes & Hrun).
  assert (Process ruleset = Ok css classes) as Hp by exact Hrun.
  pose proof (Classes_collect_fst NativeEndian NewLexer texts ruleset) as Hfst.
  rewrite Hp in Hfst.
  destruct (Classes (collect texts) ruleset) as [r c'] eqn:Hcl. cbn [fst] in Hfst. subst r.
  assert (forall n, In n className ->
            classes !! n = Some (n +:+ "_" +:+ genHash NativeEndian ruleset)) as Hall.
  { intros n Hn. rewrite Forall_forall in Hsel.
    apply (selectors_in_mapping ruleset css classes n Hp).
    apply Hsel. now apply list_elem_of_In. }
  rewrite (C_joins (collect texts) c' ruleset className classes Hcl).
  - cbn [fst]. do 3 f_equal. apply map_ext_in. intros n Hn. now rewrite (Hall n Hn).
  - apply Forall_forall. intros n Hn. apply list_elem_of_In in Hn.
    rewrite (Hall n Hn). eauto.
Qed.

(** X12. From the stylesheet to the attribute: on a collector built by
    any earlier calls of [Classes], when every requested name is a class
    selector of the ruleset outside a [:global] block (its [.] not
    directly after a colon, an at-keyword or another [.]), [C] returns
    the class attribute made of each name followed by an underscore and
    the fingerprint of the ruleset, in the order requested. *)
Theorem C_on_class_selectors (texts : list string) (ruleset : string)
    (className : list string) :
  lerr (NewLexer ruleset) = EOF ->
  Forall (fun n => In (n, false)
                     (bare_class_selectors false None (toks (NewLexer ruleset))))
    className ->
  fst (C (collect texts) ruleset className) =
  Returns (Class (join_space
                    (map (fun n => n +:+ "_" +:+ genHash NativeEndian ruleset) className))).
Proof. apply C_on_selectors. Qed.

(** X13. [R] resolves the class [root]: on a collector built by any
    earlier calls of [Classes], when the ruleset has the class selector
    [.root] outside a [:global] block, [R] returns the class attribute
    [root_] followed by the fingerprint; when the mapping of the ruleset
    has no key [root], it panics naming [root]. *)
Theorem R_resolves_root (texts : list string) (ruleset : string) :
  (lerr (NewLexer ruleset) = EOF ->
   In ("root", false) (bare_class_selectors false None (toks (NewLexer ruleset))) ->
   fst (R (collect texts) ruleset) =
   Returns (Class ("root_" +:+ genHash NativeEndian ruleset))) /\
  (forall css classes,
     Process ruleset = Ok css classes -> classes !! "root" = None ->
     fst (R (collect texts) ruleset) =
     Panics (PanicString ("no class found " +:+ Quote "root"))).
Proof.
  split.
  - intros Herr Hin. unfold Aggregator.R.
    rewrite (C_on_selectors texts ruleset ["root"] Herr); [reflexivity|].
    constructor; [exact Hin | constructor].
  - intros css classes Hp Hnone. unfold Aggregator.R, Aggregator.C.
    pose proof (Classes_collect_fst NativeEndian NewLexer texts ruleset) as Hfst.
    rewrite Hp in Hfst.
    destruct (Classes (collect texts) ruleset) as [r c']. cbn [fst] in Hfst. subst r.
    rewrite Hnone. reflexivity.
Qed.

(** X14. [C] changes the collector exactly as [Classes] does, whatever
    names are requested and whether or not it panics; and when [Process]
    fails on the ruleset, [C] panics with that error. *)
Theorem C_mutates_as_Classes (c : Collector) (ruleset : string) (className : list string) :
  snd (C c ruleset className) = snd (Classes c ruleset) /\
  match fst (Classes c ruleset) with
  | LookupError err => fst (C c ruleset className) = Panics (PanicError err)
  | Mapping _ => True
  end.
Proof.
  unfold Aggregator.C.
  destruct (Classes c ruleset) as [[mapping|err] c']; cbn [fst snd].
  - split; [|exact I].
    destruct className as [|n0 [|n1 rest]].
    + reflexivity.
    + destruct (mapping !! n0); reflexivity.
    + destruct (C_loop Quote mapping 0 (n0 :: n1 :: rest) EmptyString); reflexivity.
  - split; reflexivity.
Qed.

End Attributes.

Section RenderedOnce.

Variable NativeEndian : ByteOrder.
Variable NewLexer : string -> Lexer.

Abbreviation Classes := (Classes NativeEndian NewLexer).

(** [Render] into a sink that keeps its bytes. *)
Lemma Render_MemWrite (c : Collector) (w : string) :
  Render string MemWrite c w =
  (Returns None, {| rules := rules c; styles := EmptyString |},
   ((w +:+ "<style>") +:+ styles c) +:+ "</style>").
Proof.
  unfold Aggregator.Render, Buffer_WriteTo, MemWrite.
  destruct (decide (0 < String.length (styles c))%nat) as [Hpos|Hzero].
  - destruct (decide (String.length (styles c) < String.length (styles c))%nat); [lia|].
    destruct (decide (String.length (styles c) <> String.length (styles c)));
      [contradiction|].
    reflexivity.
  - destruct (styles c) as [|x buf]; [|cbn in Hzero; lia].
    now rewrite app_nil_r.
Qed.

(** X15. Styles are rendered once: after a ruleset has been collected
    and the collector rendered into a sink that keeps its bytes, asking
    for the same ruleset again adds nothing to the buffer, and the next
    [Render] emits an empty style block. *)
Theorem rendered_styles_are_not_emitted_again (c : Collector) (ruleset w w' : string) :
  let c1 := snd (Classes c ruleset) in
  let c2 := snd (fst (Render string MemWrite c1 w)) in
  let c3 := snd (Classes c2 ruleset) in
  snd (Render string MemWrite c1 w) = ((w +:+ "<style>") +:+ styles c1) +:+ "</style>" /\
  styles c3 = EmptyString /\
  snd (Render string MemWrite c3 w') = (w' +:+ "<style>") +:+ "</style>".
Proof.
  cbv zeta. rewrite Render_MemWrite. cbn [fst snd].
  split; [reflexivity|].
  assert (styles (snd (Classes {| rules := rules (snd (Classes c ruleset));
                                  styles := EmptyString |} ruleset)) = EmptyString) as Hs.
  { destruct (AggregatorFacts.Classes_cases NativeEndian NewLexer c ruleset)
      as [(m & Hc & E) | [(err & Hc & Hp & E) | (css & m & c' & Hc & Hp & E & Hc' & _)]];
      rewrite E; cbn [snd]; unfold Aggregator.Classes; cbn [rules styles].
    - rewrite Hc. reflexivity.
    - rewrite Hc, Hp. reflexivity.
    - rewrite Hc'. reflexivity. }
  split; [exact Hs|].
  rewrite Render_MemWrite. cbn [snd]. rewrite Hs. now rewrite app_nil_r.
Qed.

End RenderedOnce.

End AggregatorMore.

(** X16. The media loop ends at the first right brace it reads: after
    any run of tokens that holds no right brace and no [.] delimiter,
    left braces included, a right brace is copied and the main loop
    takes over, with the look-ahead buffer reset. *)
Theorem media_loop_ends_at_first_right_brace (hash : string) (R : Type)
    (atEnd : State -> Buffers -> R) (pre : list Token) (rbrace : string)
    (zz : list Token) (b : Buffers) :
  forallb (fun t => negb (bool_decide (fst t = RightBraceToken)) && negb (is_dot t)) pre = true ->
  mediaLoop hash atEnd (pre ++ (RightBraceToken, rbrace) :: zz) b =
  mainLoop hash atEnd zz (tmp_Reset (out_Write (payload pre +:+ rbrace) b)).
Proof. apply TransformerFacts.mediaLoop_ends_at_first_right_brace. Qed.

(** ** Instances *)

(** X4, on the payload of the package's test [ValidCSSModules]. *)
Lemma mapping_entries_are_scoped_selectors_test :
  "test-class_2A9LcA" =
    "test-class" +:+ "_" +:+
    genHash LittleEndian ".test-class { color: red; font-size: large; }" /\
  has_selector
    (toks (RefLexer.NewLexer ".test-class { color: red; font-size: large; }"))
    "test-class".
Proof.
  apply (TransformerMore.mapping_entries_are_scoped_selectors LittleEndian RefLexer.NewLexer
           ".test-class { color: red; font-size: large; }"
           ".test-class_2A9LcA { color: red; font-size: large; }"
           (<["test-class" := "test-class_2A9LcA"]> ∅)).
  - vm_compute. reflexivity.
  - vm_compute. reflexivity.
Defined.

(** X5, on a stylesheet without colons, at-rules and classes. *)
Lemma plain_tokens_pass_through_test :
  Process LittleEndian RefLexer.NewLexer "#main > p { } /* note */" =
  Ok "#main > p { } /* note */" ∅.
Proof.
  apply (TransformerMore.plain_tokens_pass_through LittleEndian RefLexer.NewLexer
           "#main > p { } /* note */"); reflexivity.
Defined.

(** X6, on the body of a media block. *)
Lemma media_loop_scopes_as_main_loop_test :
  mediaLoop "h" (fun _ => returnAtError EOF)
    (toks (RefLexer.NewLexer "{ .a { } .b, . c { } }"))
    {| out := "@media"; tmp := EmptyString; scopedClasses := ∅ |} =
  mainLoop "h" (fun _ => returnAtError EOF)
    (toks (RefLexer.NewLexer "{ .a { } .b, . c { } }"))
    {| out := "@media"; tmp := EmptyString; scopedClasses := ∅ |}.
Proof.
  apply (TransformerMore.media_loop_scopes_as_main_loop "h" EOF
           (toks (RefLexer.NewLexer "{ .a { } .b, . c { } }")) "@media" ∅).
  reflexivity.
Defined.

(** X7, on two rules. *)
Lemma run_composes_test :
  run "h" {| toks := toks (RefLexer.NewLexer ".a{}") ++ toks (RefLexer.NewLexer ".b{}");
             lerr := EOF |} =
  sequence (run "h" (RefLexer.NewLexer ".a{}")) (run "h" (RefLexer.NewLexer ".b{}")).
Proof.
  apply (TransformerCompose.run_composes "h" EOF
           (toks (RefLexer.NewLexer ".a{}")) (toks (RefLexer.NewLexer ".b{}"))).
  reflexivity.
Defined.

(** X8, on a [:global] block followed by a rule. *)
Lemma global_block_then_rest_test :
  let pre := [(WhitespaceToken, " ")] in
  let inner := [(DelimToken, "."); (IdentToken, "a"); (WhitespaceToken, " ");
                (LeftBraceToken, "{"); (WhitespaceToken, " "); (RightBraceToken, "}")] in
  let rest := toks (RefLexer.NewLexer " .b{}") in
  run "h" {| toks := (ColonToken, ":") :: (IdentToken, "global") ::
                     pre ++ (LeftBraceToken, "{") :: inner ++
                     (RightBraceToken, "}") :: rest;
             lerr := EOF |} =
  match run "h" {| toks := rest; lerr := EOF |} with
  | Ok css classes => Ok ((payload pre +:+ payload inner) +:+ css) classes
  | Fail e => Fail e
  end.
Proof.
  cbv zeta.
  apply (TransformerCompose.global_block_then_rest "h" ":" "{" "}" EOF); reflexivity.
Defined.

(** X11, on a ruleset that defines [a] and [b]. *)
Lemma C_returns_scoped_names_in_order_test :
  let first := Classes LittleEndian RefLexer.NewLexer new_Collector ".a{} .b{}" in
  let mapping := <["a" := "a_MAPrDg"]> (<["b" := "b_MAPrDg"]> ∅) : gmap string string in
  C LittleEndian RefLexer.NewLexer Quote_plain new_Collector ".a{} .b{}" ["b"; "a"; "b"] =
  (Returns (Class (join_space
                     (map (fun n => default EmptyString (mapping !! n)) ["b"; "a"; "b"]))),
   snd first).
Proof.
  cbv zeta.
  apply (AggregatorMore.C_returns_scoped_names_in_order LittleEndian RefLexer.NewLexer
           Quote_plain new_Collector).
  - vm_compute. reflexivity.
  - repeat (apply List.Forall_cons; [vm_compute; eexists; reflexivity|]).
    apply List.Forall_nil.
Defined.

(** X12, after two other rulesets have been collected. *)
Lemma C_on_class_selectors_test :
  fst (C LittleEndian RefLexer.NewLexer Quote_plain
         (collect LittleEndian RefLexer.NewLexer [".x{}"; ".a{} .b{}"; ".y{}"])
         ".a{} .b{}" ["b"; "a"]) =
  Returns (Class (join_space
                    (map (fun n => n +:+ "_" +:+ genHash LittleEndian ".a{} .b{}")
                       ["b"; "a"]))).
Proof.
  apply (AggregatorMore.C_on_class_selectors LittleEndian RefLexer.NewLexer Quote_plain
           [".x{}"; ".a{} .b{}"; ".y{}"] ".a{} .b{}" ["b"; "a"]).
  - reflexivity.
  - repeat (apply List.Forall_cons; [vm_compute; tauto|]). apply List.Forall_nil.
Defined.

(** X13, on a ruleset with the class [root]. *)
Lemma R_resolves_root_test :
  fst (R LittleEndian RefLexer.NewLexer Quote_plain
         (collect LittleEndian RefLexer.NewLexer []) ".root { margin: 0 }") =
  Returns (Class ("root_" +:+ genHash LittleEndian ".root { margin: 0 }")).
Proof.
  apply (proj1 (AggregatorMore.R_resolves_root LittleEndian RefLexer.NewLexer Quote_plain
                  [] ".root { margin: 0 }")).
  - reflexivity.
  - vm_compute. left. reflexivity.
Defined.

(** X16, on a block nested in a media block. *)
Lemma media_loop_ends_at_first_right_brace_test :
  mediaLoop "h" (fun _ => returnAtError EOF)
    ([(LeftBraceToken, "{"); (IdentToken, "a"); (LeftBraceToken, "{")] ++
     (RightBraceToken, "}") :: [(RightBraceToken, "}")]) empty_buffers =
  mainLoop "h" (fun _ => returnAtError EOF) [(RightBraceToken, "}")]
    (tmp_Reset (out_Write ("{a{" +:+ "}") empty_buffers)).
Proof.
  apply (media_loop_ends_at_first_right_brace "h" result (fun _ => returnAtError EOF)
           [(LeftBraceToken, "{"); (IdentToken, "a"); (LeftBraceToken, "{")] "}"
           [(RightBraceToken, "}")] empty_buffers).
  reflexivity.
Defined.

(** X17, on a stream that ends with a [.]. *)
Lemma last_token_is_flushed_unless_colon_test :
  run "h" {| toks := toks (RefLexer.NewLexer "a ") ++ [(DelimToken, ".")]; lerr := EOF |} =
  sequence (run "h" {| toks := toks (RefLexer.NewLexer "a "); lerr := EOF |})
           (Ok (if decide (DelimToken = ColonToken) then EmptyString else ".") ∅).
Proof.
  apply (TransformerCompose.last_token_is_flushed_unless_colon "h"
           (toks (RefLexer.NewLexer "a ")) DelimToken ".").
  reflexivity.
Defined.

(** X18, on a class between two type selectors. *)
Lemma class_selector_is_rewritten_in_place_test :
  run "h" {| toks := toks (RefLexer.NewLexer "p ") ++
                     (DelimToken, ".") :: (IdentToken, "a") :: toks (RefLexer.NewLexer " q");
             lerr := EOF |} =
  sequence (run "h" {| toks := toks (RefLexer.NewLexer "p "); lerr := EOF |})
    (sequence (Ok ("." +:+ "a" +:+ "_" +:+ "h") (<["a" := "a" +:+ "_" +:+ "h"]> ∅))
              (run "h" {| toks := toks (RefLexer.NewLexer " q"); lerr := EOF |})).
Proof.
  apply (TransformerCompose.class_selector_is_rewritten_in_place "h" "a"
           (toks (RefLexer.NewLexer "p ")) (toks (RefLexer.NewLexer " q"))).
  reflexivity.
Defined.

(** ** The media loop and the lexer *)

Module MediaFacts.

Import TransformerFacts.

Lemma media_free_tail t zz : media_free (t :: zz) = true -> media_free zz = true.
Proof. cbn [media_free]. intros H. now apply andb_true_iff in H as [_ H]. Qed.

Lemma media_free_prefix pre : forall post,
  media_free (pre ++ post) = true -> media_free pre = true.
Proof.
  induction pre as [|t pre IH]; intros post H; [reflexivity|].
  cbn [app media_free] in *. apply andb_true_iff in H as [Ht H].
  apply andb_true_iff. split; [|now apply (IH post)].
  destruct pre as [|t' pre]; [reflexivity | exact Ht].
Qed.

(** On a stream in which no at-keyword is immediately followed by the
    identifier [media], the main loop and the [:global] loop never hand
    over to the media loop: the stream never runs out in one of its
    states. *)
Lemma media_loop_not_entered (hash : string) (n : nat) : forall zz,
  (length zz <= n)%nat -> media_free zz = true ->
  (forall b, in_media_loop (mainLoop hash (fun s _ => s) zz b) = false) /\
  (forall bc b, in_media_loop (globalLoop hash (fun s _ => s) zz bc b) = false).
Proof.
  induction n as [|n IH]; intros zz Hlen Hfree.
  { destruct zz; [|cbn in Hlen; lia]. split; reflexivity. }
  destruct zz as [|[zt data] zz1]; [split; reflexivity|].
  cbn [length] in Hlen.
  pose proof (media_free_tail _ _ Hfree) as Hfree1.
  split.
  - intros b. rewrite mainLoop_cons. cbv zeta.
    destruct (decide (zt = ColonToken)).
    { destruct zz1 as [|[zt2 data2] zz2]; [reflexivity|].
      pose proof (media_free_tail _ _ Hfree1) as Hfree2.
      repeat (destruct (decide _));
        apply (IH zz2); solve [cbn [length] in *; lia | exact Hfree2]. }
    destruct (decide (zt = AtKeywordToken)) as [->|].
    { destruct zz1 as [|[zt2 data2] zz2]; [reflexivity|].
      pose proof (media_free_tail _ _ Hfree1) as Hfree2.
      cbv zeta.
      destruct (decide (zt2 <> IdentToken)) as [|Hk];
        [apply (IH zz2); solve [cbn [length] in *; lia | exact Hfree2]|].
      destruct (decide (data2 <> "media")) as [|Hd];
        [apply (IH zz2); solve [cbn [length] in *; lia | exact Hfree2]|].
      apply dec_stable in Hk. apply dec_stable in Hd. subst zt2 data2.
      cbn in Hfree. discriminate. }
    destruct (decide (zt = DelimToken /\ data = ".")).
    { destruct zz1 as [|[zt2 data2] zz2]; [reflexivity|].
      pose proof (media_free_tail _ _ Hfree1) as Hfree2.
      repeat (destruct (decide _));
        apply (IH zz2); solve [cbn [length] in *; lia | exact Hfree2]. }
    apply (IH zz1); solve [lia | exact Hfree1].
  - intros bc b. rewrite globalLoop_cons.
    repeat (destruct (decide _)); apply (IH zz1); solve [lia | exact Hfree1].
Qed.

(** Whatever the stylesheet, if its tokens are such a stream, no prefix
    of them leaves [Process] in the media loop. *)
Lemma media_loop_is_never_entered (pre post : list Token) :
  media_free (pre ++ post) = true -> in_media_loop (state_at_end pre) = false.
Proof.
  intros H. apply media_free_prefix in H.
  apply (media_loop_not_entered EmptyString (length pre) pre (Nat.le_refl _) H).
Qed.

End MediaFacts.

